(** * Solution evaluator of the production-and-transportation scheduling problem

    A shallow embedding of [evaluator.py]: [get_travel_time], [evaluate] and
    the sweep of [evaluate_lacomme_et_al_solutions_for_geismar_instances].

    Numbers.  Python's [int] indices are [Z].  Coordinates, demands, capacity,
    lifespan, rate and all times are Python numbers combined with [+], [-],
    [/], [**2], [sqrt], [<=] and [max].  They are modelled twice.  The
    properties of the schedule (the merge of the two timelines, the maximum
    over the plants, the switch of the feasibility check, coverage, bounds
    and the sweep) are stated over the real numbers of the Standard Library:
    exact arithmetic, with no rounding error, no overflow and no NaN.  The
    properties that depend on the rounding, the two tests against
    [limit + EPS_VALUE] and the contract of [get_travel_time], are stated in
    the module [Double] over Python's [int] and its binary64 [float], with
    [OverflowError] and [ValueError] where the arithmetic raises them.

    Control.  A call either returns a value, executes [return INF_RETURN], or
    raises an exception; [outcome] has one constructor for each.  The
    [print_reason] and [print_solution] parameters only guard [print]
    statements and are left out. *)

From Stdlib Require Import Floats.
From Stdlib Require Import Reals Lra Lia ZArith Classical_Prop.
From stdpp Require Import base decidable option list list_numbers sorting
  strings gmap.

(** ** Results of a call *)

Inductive exn : Set :=
  | AssertionError
  | IndexError
  | KeyError
  | ZeroDivisionError
  | OverflowError
  | ValueError.

Inductive outcome (A : Type) : Type :=
  | Value (a : A)
  | INF_RETURN
  | Raise (e : exn).

Arguments Value {A} a.
Arguments INF_RETURN {A}.
Arguments Raise {A} e.

Definition bind {A B : Type} (m : outcome A) (k : A -> outcome B) : outcome B :=
  match m with
  | Value a => k a
  | INF_RETURN => INF_RETURN
  | Raise e => Raise e
  end.

Notation "'let*' x ':=' m 'in' k" := (bind m (fun x => k))
  (at level 10, x pattern, m at level 100, k at level 200).

Definition is_fault {A : Type} (o : outcome A) : Prop :=
  exists e, o = Raise e.

#[global] Instance Rle_decision : RelDecision Rle := Rle_dec.
#[global] Instance Req_decision : EqDecision R := Req_dec_T.

(** ** Python containers *)

Definition len {A : Type} (l : list A) : Z := Z.of_nat (length l).

(** [l[i]] on a list: indices [-len(l) .. -1] count from the end, anything
    outside [-len(l) .. len(l)-1] raises [IndexError]. *)
Definition getitem {A : Type} (l : list A) (i : Z) : outcome A :=
  let j := (if bool_decide (i < 0)%Z then len l + i else i)%Z in
  if bool_decide (0 <= j < len l)%Z then
    match l !! Z.to_nat j with
    | Some a => Value a
    | None => Raise IndexError
    end
  else Raise IndexError.

(** [range(a, b)] *)
Definition range (a b : Z) : list Z := seqZ a (b - a).

(** [sum(f(x) for x in l)]: left to right, starting from [0]. *)
Fixpoint sum_from {A : Type} (f : A -> outcome R) (l : list A) (acc : R)
  : outcome R :=
  match l with
  | [] => Value acc
  | a :: l' => let* v := f a in sum_from f l' (acc + v)%R
  end.

Definition py_sum {A : Type} (f : A -> outcome R) (l : list A) : outcome R :=
  sum_from f l 0%R.

(** A location is a dictionary from field names to numbers. *)
Abbreviation location := (gmap string R).

(** [d[k]] on a dictionary. *)
Definition field (d : location) (k : string) : outcome R :=
  match d !! k with
  | Some v => Value v
  | None => Raise KeyError
  end.

(** [all( key in d.keys() for key in ['x','y'] )] *)
Definition has_xy (d : location) : bool :=
  forallb (fun key => bool_decide (is_Some (d !! key))) ["x"; "y"]%string.

Definition assert (b : bool) : outcome unit :=
  if b then Value tt else Raise AssertionError.

(** ** Constants *)

Definition EPS_VALUE : R := (1 / 1000000)%R.

(** ** get_travel_time *)

Definition get_travel_time (locations : list location) (loc_a loc_b : Z)
    (rounding_func : option (R -> R)) : outcome R :=
  let* _ := assert (bool_decide (0 <= loc_a)%Z && bool_decide (loc_a < len locations)%Z) in
  let* _ := assert (bool_decide (0 <= loc_b)%Z && bool_decide (loc_b < len locations)%Z) in
  let* la := getitem locations loc_a in
  let* _ := assert (has_xy la) in
  let* lb := getitem locations loc_b in
  let* _ := assert (has_xy lb) in
  let* xa := field la "x" in
  let* xb := field lb "x" in
  let* ya := field la "y" in
  let* yb := field lb "y" in
  let dist := sqrt ((xa - xb) ^ 2 + (ya - yb) ^ 2) in
  match rounding_func with
  | None => Value dist
  | Some f => Value (f dist)
  end.

(** ** evaluate *)

(** [visited_customers] after the nested [extend] loop and [sort()]. *)
Definition visited_customers (solution : list (list (list Z))) : list Z :=
  merge_sort Z.le (concat (concat solution)).

(** [for i in range(0,len(visited)): if visited[i] != i+nplants: return INF_RETURN],
    started at index [i]. *)
Fixpoint check_visited (visited : list Z) (i nplants : Z) : outcome unit :=
  match visited with
  | [] => Value tt
  | v :: rest =>
      if bool_decide (v <> i + nplants)%Z then INF_RETURN
      else check_visited rest (i + 1)%Z nplants
  end.

(** The block under [if check_feasibility:] at the head of [evaluate]. *)
Definition check_customers (locations : list location)
    (solution : list (list (list Z))) : outcome unit :=
  let nplants := len solution in
  let visited := visited_customers solution in
  if bool_decide (len visited <> len locations - nplants)%Z then INF_RETURN
  else check_visited visited 0 nplants.

Section Evaluate.

Variable locations : list location.
Variables capacity lifespan rate : R.
Variable rounding_func : option (R -> R).
Variable check_feasibility : bool.

(** [sum( locations[location]['demand'] for location in batch )] *)
Definition batch_demand (batch : list Z) : outcome R :=
  py_sum (fun location => let* l := getitem locations location in field l "demand")
         batch.

(** [p_time /= float(rate)] *)
Definition divide (p_time : R) : outcome R :=
  if decide (rate = 0)%R then Raise ZeroDivisionError
  else Value (p_time / rate)%R.

(** The travel time up to the last customer of the batch: the leg from the
    plant to [batch[0]], then the legs [batch[cust-1] -> batch[cust]]. *)
Definition outbound_time (plant : Z) (batch : list Z) : outcome R :=
  let* first := getitem batch 0 in
  let* t_time := get_travel_time locations plant first rounding_func in
  let* legs :=
    py_sum (fun cust =>
              let* a := getitem batch (cust - 1) in
              let* b := getitem batch cust in
              get_travel_time locations a b rounding_func)
           (range 1 (len batch)) in
  Value (t_time + legs)%R.

(** [get_travel_time( locations, batch[-1], plant, rounding_func )] *)
Definition return_time (plant : Z) (batch : list Z) : outcome R :=
  let* last := getitem batch (-1) in
  get_travel_time locations last plant rounding_func.

(** The if/else that merges the production and the vehicle timelines. *)
Definition merge_timelines (curr_p_finish curr_t_finish p_time t_time max_delay : R)
  : R * R :=
  let earliest_p_finish := (curr_p_finish + p_time)%R in
  if decide (curr_t_finish <= earliest_p_finish)%R then
    let next_p_finish := (curr_p_finish + p_time)%R in
    let next_t_finish := (next_p_finish + t_time)%R in
    (next_p_finish, next_t_finish)
  else
    let next_t_finish := (curr_t_finish + t_time)%R in
    let next_p_finish := Rmax earliest_p_finish (curr_t_finish - max_delay) in
    (next_p_finish, next_t_finish).

(** The body of [for batch in solution[plant]]: from
    [(curr_p_finish, curr_t_finish)] to their values after the batch. *)
Definition eval_batch (plant : Z) (curr : R * R) (batch : list Z)
  : outcome (R * R) :=
  let '(curr_p_finish, curr_t_finish) := curr in
  let* p_time := batch_demand batch in
  if check_feasibility && bool_decide (capacity + EPS_VALUE <= p_time)%R
  then INF_RETURN else
  let* p_time := divide p_time in
  let* t_time := outbound_time plant batch in
  if check_feasibility && bool_decide (lifespan + EPS_VALUE <= t_time)%R
  then INF_RETURN else
  let max_delay := Rmax 0 (lifespan - t_time) in
  let* back := return_time plant batch in
  let t_time := (t_time + back)%R in
  Value (merge_timelines curr_p_finish curr_t_finish p_time t_time max_delay).

(** [for batch in solution[plant]: ...] *)
Fixpoint eval_batches (plant : Z) (curr : R * R) (route : list (list Z))
  : outcome (R * R) :=
  match route with
  | [] => Value curr
  | batch :: rest =>
      let* next := eval_batch plant curr batch in
      eval_batches plant next rest
  end.

(** One plant: both clocks start at [0]; the result is the final
    [curr_t_finish]. *)
Definition eval_route (plant : Z) (route : list (list Z)) : outcome R :=
  let* fin := eval_batches plant (0, 0)%R route in
  Value (snd fin).

(** [for plant in range(len(solution)): ... makespan = max( makespan, curr_t_finish )],
    with [routes] the routes [solution[plant:]]. *)
Fixpoint eval_routes (plant : Z) (routes : list (list (list Z))) (makespan : R)
  : outcome R :=
  match routes with
  | [] => Value makespan
  | route :: rest =>
      let* curr_t_finish := eval_route plant route in
      eval_routes (plant + 1)%Z rest (Rmax makespan curr_t_finish)
  end.

Definition evaluate (solution : list (list (list Z))) : outcome R :=
  let* _ := (if check_feasibility then check_customers locations solution
             else Value tt) in
  eval_routes 0 solution 0%R.

End Evaluate.

(** ** Vocabulary of the statements *)

(** The index is in range and the location has both coordinates. *)
Definition located (locations : list location) (i : Z) (x y : R) : Prop :=
  (0 <= i)%Z /\
  exists l, locations !! Z.to_nat i = Some l /\ l !! "x"%string = Some x /\
            l !! "y"%string = Some y.

Definition valid_location (locations : list location) (i : Z) : Prop :=
  exists x y, located locations i x y.

Definition euclid (xa ya xb yb : R) : R :=
  sqrt ((xa - xb) ^ 2 + (ya - yb) ^ 2).

Definition rounded (rounding_func : option (R -> R)) (v : R) : R :=
  match rounding_func with
  | None => v
  | Some f => f v
  end.

(** The dictionary [{'x': x, 'y': y, 'demand': demand}]. *)
Definition mk_location (x y demand : R) : location :=
  <["x"%string := x]> (<["y"%string := y]> (<["demand"%string := demand]> ∅)).

(** One plant in [(0,0)], one customer in [(3,4)] with demand [10]. *)
Definition plant_and_customer : list location :=
  [mk_location 0 0 0; mk_location 3 4 10].

(** Two plants in [(0,0)], a customer in [(3,4)] with demand [10] and a
    customer in [(6,8)] with demand [5]. *)
Definition two_plants : list location :=
  [mk_location 0 0 0; mk_location 0 0 0; mk_location 3 4 10; mk_location 6 8 5].

(** The legs of a path, one after the other: from [from] to the first
    location of [path], from there to the second, and so on; every leg is one
    call of [get_travel_time]. *)
Fixpoint legs_from (locations : list location) (rounding_func : option (R -> R))
    (from : Z) (path : list Z) (acc : R) : outcome R :=
  match path with
  | [] => Value acc
  | to :: rest =>
      let* leg := get_travel_time locations from to rounding_func in
      legs_from locations rounding_func to rest (acc + leg)%R
  end.

(** How the clocks of a plant at rate [rate] (unprimed) and at rate
    [2 * rate] (primed) compare, after the same batches. *)
Definition ahead (p t p' t' : R) : Prop :=
  (t' <= t)%R /\ forall s : R, (p' + s / 2 <= Rmax (p + s) t)%R.

(** A rounding function that keeps travel times non-negative, as [floor]
    and [round(x,2)] do; no rounding function at all is one. *)
Definition keeps_nonneg (rounding_func : option (R -> R)) : Prop :=
  forall x : R, (0 <= x)%R -> (0 <= rounded rounding_func x)%R.

(** [floor], as the drivers pass it for [rounding_func]: the largest integer
    that is not above [x]. *)
Definition py_floor (x : R) : R := IZR (Zfloor x).

(** The time a batch keeps the vehicle away: outbound time and return leg. *)
Definition round_trip (locations : list location)
    (rounding_func : option (R -> R)) (plant : Z) (batch : list Z) : outcome R :=
  let* t_out := outbound_time locations rounding_func plant batch in
  let* back := return_time locations rounding_func plant batch in
  Value (t_out + back)%R.

(** The time a batch keeps the production line busy. *)
Definition production_time (locations : list location) (rate : R)
    (batch : list Z) : outcome R :=
  let* demand := batch_demand locations batch in
  divide rate demand.


(** ** The sweep over the solutions of Lacomme et al.

    [evaluate_lacomme_et_al_solutions_for_geismar_instances], with the files
    it reads taken as given: [read_geismar_instance i] is the content of the
    instance file, [load_solution rep i Q B r] the content of the solution
    file of replication [rep], and [round2] stands for [lambda x: round(x,2)].
    The lines written to the output file are returned as rows; the [print]
    statements are left out. *)

(** What [evaluate] hands back to a caller: a number or the string ['inf']. *)
Inductive value : Type :=
  | Number (m : R)
  | Inf.

(** A call of [evaluate] inside a driver: an exception goes on to the
    caller of the driver, ['inf'] is a value like any other. *)
Definition returned (o : outcome R) : outcome value :=
  match o with
  | Value m => Value (Number m)
  | INF_RETURN => Value Inf
  | Raise e => Raise e
  end.

(** [value == INF_RETURN] *)
Definition is_Inf (v : value) : bool :=
  match v with
  | Inf => true
  | Number _ => false
  end.

(** A [for] loop over [l] whose body updates the state [st] and may raise. *)
Fixpoint for_each {A S : Type} (body : A -> S -> outcome S) (l : list A) (st : S)
  : outcome S :=
  match l with
  | [] => Value st
  | a :: rest => let* st' := body a st in for_each body rest st'
  end.

(** [product(capacities, lifespans, rates)] *)
Definition product (capacities lifespans rates : list Z) : list (Z * Z * Z) :=
  flat_map (fun Q => flat_map (fun B => map (fun r => (Q, B, r)) rates) lifespans)
           capacities.

(** The dictionaries [floor_dict] and [round_dict]: keys in the order of
    their first insertion, each with its list of replications. *)
Fixpoint append_rep (d : list (Z * Z * Z * Z * list Z)) (key : Z * Z * Z * Z)
    (rep : Z) : list (Z * Z * Z * Z * list Z) :=
  match d with
  | [] => [(key, [rep])]
  | (key', reps) :: rest =>
      if decide (key' = key) then (key', reps ++ [rep]) :: rest
      else (key', reps) :: append_rep rest key rep
  end.

(** [for (i,Q,B,r,rep) in cases: ... dict[(i,Q,B,r)].append( rep )] *)
Definition collect (cases : list (Z * Z * Z * Z * Z))
  : list (Z * Z * Z * Z * list Z) :=
  foldl (fun d '(i, Q, B, r, rep) => append_rep d (i, Q, B, r) rep) [] cases.

Section Lacomme.

Variable read_geismar_instance : Z -> list location.
Variable load_solution : Z -> Z -> Z -> Z -> Z -> list (list Z).
Variable round2 : R -> R.
Variable check_feasibility : bool.

(** [return [ json.load( f ) ]]: the file holds one route. *)
Definition read_solution_for_geismar_instance (rep i Q B r : Z)
  : list (list (list Z)) :=
  [load_solution rep i Q B r].

(** One of the three calls of [evaluate] for the case [(i,Q,B,r,rep)]. *)
Definition evaluate_case (rounding_func : option (R -> R))
    (c : Z * Z * Z * Z * Z) : outcome R :=
  let '(i, Q, B, r, rep) := c in
  evaluate (read_geismar_instance i) (IZR Q) (IZR B) (IZR r) rounding_func
    check_feasibility (read_solution_for_geismar_instance rep i Q B r).

(** The body of [for rep in [1,2,3,4,5]]; the state holds [values] and the
    two lists of infeasible cases. *)
Definition rep_body (i Q B r rep : Z)
    (st : list value * list (Z * Z * Z * Z * Z) * list (Z * Z * Z * Z * Z))
  : outcome (list value * list (Z * Z * Z * Z * Z) * list (Z * Z * Z * Z * Z)) :=
  let '(values, floor_infeasible_cases, round_infeasible_cases) := st in
  let* origi_value := returned (evaluate_case None (i, Q, B, r, rep)) in
  let* round_value := returned (evaluate_case (Some round2) (i, Q, B, r, rep)) in
  let* floor_value := returned (evaluate_case (Some py_floor) (i, Q, B, r, rep)) in
  let values := values ++ [origi_value; round_value; floor_value] in
  if is_Inf floor_value then
    Value (values, floor_infeasible_cases ++ [(i, Q, B, r, rep)],
           round_infeasible_cases)
  else if is_Inf round_value then
    Value (values, floor_infeasible_cases,
           round_infeasible_cases ++ [(i, Q, B, r, rep)])
  else Value (values, floor_infeasible_cases, round_infeasible_cases).

(** The body of [for (Q,B,r) in product(capacities,lifespans,rates)]; the
    state holds the rows written so far and the two lists. *)
Definition combination_body (i : Z) (c : Z * Z * Z)
    (st : list (Z * Z * Z * Z * list value) * list (Z * Z * Z * Z * Z)
          * list (Z * Z * Z * Z * Z))
  : outcome (list (Z * Z * Z * Z * list value) * list (Z * Z * Z * Z * Z)
             * list (Z * Z * Z * Z * Z)) :=
  let '(Q, B, r) := c in
  let '(rows, floor_infeasible_cases, round_infeasible_cases) := st in
  let* st' :=
    for_each (rep_body i Q B r) [1; 2; 3; 4; 5]%Z
             ([], floor_infeasible_cases, round_infeasible_cases) in
  let '(values, floor_infeasible_cases, round_infeasible_cases) := st' in
  Value (rows ++ [(i, Q, B, r, values)], floor_infeasible_cases,
         round_infeasible_cases).

(** The two nested loops, from empty lists. *)
Definition sweep (instances capacities lifespans rates : list Z)
  : outcome (list (Z * Z * Z * Z * list value) * list (Z * Z * Z * Z * Z)
             * list (Z * Z * Z * Z * Z)) :=
  for_each (fun i => for_each (combination_body i)
                              (product capacities lifespans rates))
           instances ([], [], []).

(** The whole driver: the rows of values, then the two dictionaries. *)
Definition evaluate_lacomme_et_al_solutions_for_geismar_instances
    (instances capacities lifespans rates : list Z)
  : outcome (list (Z * Z * Z * Z * list value) * list (Z * Z * Z * Z * list Z)
             * list (Z * Z * Z * Z * list Z)) :=
  let* st := sweep instances capacities lifespans rates in
  let '(rows, floor_infeasible_cases, round_infeasible_cases) := st in
  let floor_dict := collect floor_infeasible_cases in
  let round_dict := collect round_infeasible_cases in
  Value (rows, floor_dict, round_dict).

(** The cases of a sweep, in the order in which they are evaluated. *)
Definition cases_of (instances capacities lifespans rates : list Z)
  : list (Z * Z * Z * Z * Z) :=
  flat_map (fun i =>
              flat_map (fun '(Q, B, r) =>
                          map (fun rep => (i, Q, B, r, rep)) [1; 2; 3; 4; 5]%Z)
                       (product capacities lifespans rates))
           instances.

(** [floor_value == INF_RETURN], and the [elif] after it. *)
Definition floor_infeasible (c : Z * Z * Z * Z * Z) : bool :=
  match evaluate_case (Some py_floor) c with
  | INF_RETURN => true
  | _ => false
  end.

Definition round_infeasible (c : Z * Z * Z * Z * Z) : bool :=
  negb (floor_infeasible c)
  && match evaluate_case (Some round2) c with
     | INF_RETURN => true
     | _ => false
     end.

(** A case whose three evaluations raise no exception. *)
Definition completes (c : Z * Z * Z * Z * Z) : Prop :=
  (forall e, evaluate_case None c <> Raise e) /\
  (forall e, evaluate_case (Some round2) c <> Raise e) /\
  (forall e, evaluate_case (Some py_floor) c <> Raise e).

End Lacomme.

(** [dict[key]], if the key is there. *)
Fixpoint dict_get (d : list (Z * Z * Z * Z * list Z)) (key : Z * Z * Z * Z)
  : option (list Z) :=
  match d with
  | [] => None
  | (key', reps) :: rest =>
      if decide (key' = key) then Some reps else dict_get rest key
  end.

(** The replications recorded for a key, in the order of the cases. *)
Definition reps_of (key : Z * Z * Z * Z) (cases : list (Z * Z * Z * Z * Z))
  : list Z :=
  omap (fun '(i, Q, B, r, rep) =>
          if decide ((i, Q, B, r) = key) then Some rep else None) cases.

(** An instance whose locations all carry ['x'], ['y'] and ['demand']. *)
Definition well_formed (locations : list location) : Prop :=
  Forall (fun l : location =>
            is_Some (l !! "x"%string) /\ is_Some (l !! "y"%string) /\
            is_Some (l !! "demand"%string)) locations.

(** ** Double precision

    The tests against the limits and the travel metric, in Python's own
    arithmetic: a number is an [int], with exact operations, or a [float], a
    binary64 value with the operations of the processor.  A float squared,
    [x ** 2], is taken to be the correctly rounded product [x * x]. *)

Module Double.

Inductive number : Type :=
  | Int (z : Z)
  | Float (f : float).

(** [EPS_VALUE = 0.000001], the double nearest to it. *)
Definition EPS_VALUE : float := 0x1.0c6f7a0b5ed8dp-20%float.

(** The double nearest to the integer [z], ties to even; an [int] beyond
    the range of the doubles raises [OverflowError]. *)
Definition float_of_int (z : Z) : outcome float :=
  match binary_normalize prec emax z 0 false with
  | S754_infinity _ => Raise OverflowError
  | sf => Value (SF2Prim sf)
  end.

(** [float(a)], also the conversion of an [int] operand next to a [float]. *)
Definition to_float (a : number) : outcome float :=
  match a with
  | Int z => float_of_int z
  | Float f => Value f
  end.

(** [a + b] *)
Definition py_add (a b : number) : outcome number :=
  match a, b with
  | Int x, Int y => Value (Int (x + y))
  | _, _ =>
      let* x := to_float a in
      let* y := to_float b in
      Value (Float (x + y)%float)
  end.

(** [a - b] *)
Definition py_sub (a b : number) : outcome number :=
  match a, b with
  | Int x, Int y => Value (Int (x - y))
  | _, _ =>
      let* x := to_float a in
      let* y := to_float b in
      Value (Float (x - y)%float)
  end.

(** [a ** 2]: exact on an [int]; on a [float], [nan] and the infinities go
    through, and a finite float whose square is out of range raises
    [OverflowError]. *)
Definition py_square (a : number) : outcome number :=
  match a with
  | Int z => Value (Int (z * z))
  | Float f =>
      if is_nan f then Value (Float f)
      else if is_infinity f then Value (Float (abs f))
      else
        let r := (f * f)%float in
        if is_infinity r then Raise OverflowError else Value (Float r)
  end.

(** [math.sqrt(x)]: a result that is [nan] for an argument that is not
    raises [ValueError]. *)
Definition py_sqrt (x : float) : outcome float :=
  let r := PrimFloat.sqrt x in
  if is_nan r && negb (is_nan x) then Raise ValueError else Value r.

(** [a / b] for a [float] divisor. *)
Definition py_div (a : number) (b : float) : outcome float :=
  let* x := to_float a in
  if (b =? 0)%float then Raise ZeroDivisionError else Value (x / b)%float.



Abbreviation location := (gmap string number).

(** [d[k]] on a dictionary. *)
Definition field (d : location) (k : string) : outcome number :=
  match d !! k with
  | Some v => Value v
  | None => Raise KeyError
  end.

(** [all( key in d.keys() for key in ['x','y'] )] *)
Definition has_xy (d : location) : bool :=
  forallb (fun key => bool_decide (is_Some (d !! key))) ["x"; "y"]%string.

(** The arithmetic of [get_travel_time]:
    [sqrt( float((xa - xb)**2 + (ya - yb)**2) )]. *)
Definition distance (xa ya xb yb : number) : outcome float :=
  let* dx := py_sub xa xb in
  let* dx2 := py_square dx in
  let* dy := py_sub ya yb in
  let* dy2 := py_square dy in
  let* sum := py_add dx2 dy2 in
  let* arg := to_float sum in
  py_sqrt arg.

(** [rounding_func] is any callable on the distance: it returns a number or
    raises. *)
Definition get_travel_time (locations : list location) (loc_a loc_b : Z)
    (rounding_func : option (float -> outcome number)) : outcome number :=
  let* _ := assert (bool_decide (0 <= loc_a)%Z && bool_decide (loc_a < len locations)%Z) in
  let* _ := assert (bool_decide (0 <= loc_b)%Z && bool_decide (loc_b < len locations)%Z) in
  let* la := getitem locations loc_a in
  let* _ := assert (has_xy la) in
  let* lb := getitem locations loc_b in
  let* _ := assert (has_xy lb) in
  let* xa := field la "x" in
  let* xb := field lb "x" in
  let* ya := field la "y" in
  let* yb := field lb "y" in
  let* dist := distance xa ya xb yb in
  match rounding_func with
  | None => Value (Float dist)
  | Some f => f dist
  end.

(** [sum(f(x) for x in l)]: the additions of the loop, left to right,
    starting from the [int] [0].  (From CPython 3.12 on, [sum] compensates
    the rounding errors of a run of floats, which can change the last bit of
    a sum of three floats or more; the sum of a run of [int]s, and of a
    single float, is the same.) *)
Fixpoint sum_from {A : Type} (f : A -> outcome number) (l : list A) (acc : number)
  : outcome number :=
  match l with
  | [] => Value acc
  | a :: l' =>
      let* v := f a in
      let* acc' := py_add acc v in
      sum_from f l' acc'
  end.

Definition py_sum {A : Type} (f : A -> outcome number) (l : list A)
  : outcome number :=
  sum_from f l (Int 0).


Section Tests.

Variable locations : list location.
Variables capacity lifespan rate : number.
Variable rounding_func : option (float -> outcome number).
Variable check_feasibility : bool.

(** [sum( locations[location]['demand'] for location in batch )] *)
Definition batch_demand (batch : list Z) : outcome number :=
  py_sum (fun location => let* l := getitem locations location in field l "demand")
         batch.

(** [p_time /= float(rate)] *)
Definition divide (p_time : number) : outcome float :=
  let* r := to_float rate in
  py_div p_time r.

(** The two lines that compute [t_time] before the lifespan test. *)
Definition outbound_time (plant : Z) (batch : list Z) : outcome number :=
  let* first := getitem batch 0 in
  let* t_time := get_travel_time locations plant first rounding_func in
  let* legs :=
    py_sum (fun cust =>
              let* a := getitem batch (cust - 1) in
              let* b := getitem batch cust in
              get_travel_time locations a b rounding_func)
           (range 1 (len batch)) in
  py_add t_time legs.


End Tests.

(** The index is in range and the location has both coordinates. *)
Definition located (locations : list location) (i : Z) (x y : number) : Prop :=
  (0 <= i)%Z /\
  exists l, locations !! Z.to_nat i = Some l /\ l !! "x"%string = Some x /\
            l !! "y"%string = Some y.

Definition valid_location (locations : list location) (i : Z) : Prop :=
  exists x y, located locations i x y.

(** The dictionary [{'x': x, 'y': y, 'demand': demand}]. *)
Definition mk_location (x y demand : number) : location :=
  <["x"%string := x]> (<["y"%string := y]> (<["demand"%string := demand]> ∅)).

End Double.




(** * Properties *)

(** ** Indexing *)

Lemma getitem_nonneg {A : Type} (l : list A) (i : Z) (a : A) :
  (0 <= i)%Z -> l !! Z.to_nat i = Some a -> getitem l i = Value a.
Proof.
  intros Hi Hl. unfold getitem.
  assert (Hlt : (i < len l)%Z).
  { apply lookup_lt_Some in Hl. unfold len. lia. }
  rewrite (bool_decide_eq_false_2 (i < 0)%Z) by lia.
  rewrite bool_decide_eq_true_2 by lia.
  now rewrite Hl.
Qed.

Lemma getitem_in_range {A : Type} (l : list A) (i : Z) :
  (0 <= i < len l)%Z -> exists a, l !! Z.to_nat i = Some a /\ getitem l i = Value a.
Proof.
  intros Hi.
  destruct (lookup_lt_is_Some_2 l (Z.to_nat i)) as [a Ha].
  { unfold len in Hi. lia. }
  exists a. split; [exact Ha|]. apply getitem_nonneg; [lia|exact Ha].
Qed.

Lemma getitem_nil {A : Type} (i : Z) : getitem (@nil A) i = Raise IndexError.
Proof.
  unfold getitem, len. simpl.
  case_bool_decide; [|reflexivity].
  case_bool_decide; lia.
Qed.

Lemma getitem_last {A : Type} (l : list A) (a : A) :
  getitem (l ++ [a]) (-1) = Value a.
Proof.
  assert (Hlen : len (l ++ [a]) = (len l + 1)%Z).
  { unfold len. rewrite length_app. simpl. lia. }
  unfold getitem. rewrite Hlen.
  rewrite (bool_decide_eq_true_2 (-1 < 0)%Z) by lia.
  rewrite bool_decide_eq_true_2 by (unfold len; lia).
  replace (Z.to_nat (len l + 1 + -1)) with (length l + 0)%nat by (unfold len; lia).
  now rewrite lookup_app_r, Nat.add_0_r, Nat.sub_diag by lia.
Qed.

(** ** get_travel_time *)

Lemma has_xy_true (l : location) :
  has_xy l = true <-> is_Some (l !! "x"%string) /\ is_Some (l !! "y"%string).
Proof.
  unfold has_xy. simpl. rewrite andb_true_r, andb_true_iff.
  now rewrite !bool_decide_eq_true.
Qed.

Lemma get_travel_time_located locations a b rounding_func xa ya xb yb :
  located locations a xa ya -> located locations b xb yb ->
  get_travel_time locations a b rounding_func
  = Value (rounded rounding_func (euclid xa ya xb yb)).
Proof.
  intros (Ha & la & Hla & Hxa & Hya) (Hb & lb & Hlb & Hxb & Hyb).
  unfold get_travel_time.
  assert (a < len locations)%Z by (apply lookup_lt_Some in Hla; unfold len; lia).
  assert (b < len locations)%Z by (apply lookup_lt_Some in Hlb; unfold len; lia).
  rewrite !bool_decide_eq_true_2 by lia. simpl.
  rewrite (getitem_nonneg _ _ _ Ha Hla). simpl.
  rewrite (proj2 (has_xy_true la)) by (rewrite Hxa, Hya; eauto). simpl.
  rewrite (getitem_nonneg _ _ _ Hb Hlb). simpl.
  rewrite (proj2 (has_xy_true lb)) by (rewrite Hxb, Hyb; eauto). simpl.
  unfold field. rewrite Hxa, Hxb, Hya, Hyb. simpl.
  now destruct rounding_func.
Qed.

Lemma get_travel_time_invalid locations a b rounding_func :
  ~ valid_location locations a \/ ~ valid_location locations b ->
  get_travel_time locations a b rounding_func = Raise AssertionError.
Proof.
  intros Hinv. unfold get_travel_time.
  destruct (bool_decide (0 <= a)%Z && bool_decide (a < len locations)%Z) eqn:Ea;
    [|reflexivity].
  destruct (bool_decide (0 <= b)%Z && bool_decide (b < len locations)%Z) eqn:Eb;
    [|reflexivity].
  apply andb_true_iff in Ea as [Ea1 Ea2]. apply andb_true_iff in Eb as [Eb1 Eb2].
  apply bool_decide_eq_true in Ea1, Ea2, Eb1, Eb2. simpl.
  destruct (getitem_in_range locations a) as (la & Hla & ->); [lia|].
  destruct (getitem_in_range locations b) as (lb & Hlb & Hgb); [lia|]. simpl.
  destruct (has_xy la) eqn:Exa; [|reflexivity]. simpl. rewrite Hgb. simpl.
  destruct (has_xy lb) eqn:Exb; [|reflexivity]. exfalso.
  apply has_xy_true in Exa as [[xa Hxa] [ya Hya]].
  apply has_xy_true in Exb as [[xb Hxb] [yb Hyb]].
  destruct Hinv as [Hinv|Hinv]; apply Hinv.
  - exists xa, ya. split; [lia|]. eauto.
  - exists xb, yb. split; [lia|]. eauto.
Qed.

Lemma get_travel_time_cases locations a b rounding_func :
  get_travel_time locations a b rounding_func = Raise AssertionError \/
  exists xa ya xb yb, located locations a xa ya /\ located locations b xb yb /\
    get_travel_time locations a b rounding_func
    = Value (rounded rounding_func (euclid xa ya xb yb)).
Proof.
  destruct (classic (valid_location locations a)) as [(xa & ya & Ha)|Ha].
  - destruct (classic (valid_location locations b)) as [(xb & yb & Hb)|Hb].
    + right. exists xa, ya, xb, yb.
      split; [exact Ha|]. split; [exact Hb|].
      now apply get_travel_time_located.
    + left. apply get_travel_time_invalid. now right.
  - left. apply get_travel_time_invalid. now left.
Qed.

(** ** Concrete dictionaries *)

Lemma mk_location_x x y d : mk_location x y d !! "x"%string = Some x.
Proof. unfold mk_location. now simplify_map_eq. Qed.

Lemma mk_location_y x y d : mk_location x y d !! "y"%string = Some y.
Proof. unfold mk_location. now simplify_map_eq. Qed.

Lemma mk_location_demand x y d : mk_location x y d !! "demand"%string = Some d.
Proof. unfold mk_location. now simplify_map_eq. Qed.

Lemma located_head l locations x y :
  l !! "x"%string = Some x -> l !! "y"%string = Some y ->
  located (l :: locations) 0 x y.
Proof. intros Hx Hy. split; [lia|]. exists l. now simpl. Qed.

Lemma located_second l0 l locations x y :
  l !! "x"%string = Some x -> l !! "y"%string = Some y ->
  located (l0 :: l :: locations) 1 x y.
Proof. intros Hx Hy. split; [lia|]. exists l. now simpl. Qed.

Lemma sqrt_3_4 : sqrt ((0 - 3) ^ 2 + (0 - 4) ^ 2) = 5%R.
Proof.
  replace ((0 - 3) ^ 2 + (0 - 4) ^ 2)%R with (5 * 5)%R by ring.
  apply sqrt_square. lra.
Qed.

Lemma sqrt_4_3 : sqrt ((3 - 0) ^ 2 + (4 - 0) ^ 2) = 5%R.
Proof.
  replace ((3 - 0) ^ 2 + (4 - 0) ^ 2)%R with (5 * 5)%R by ring.
  apply sqrt_square. lra.
Qed.

(** ** The control monad *)

Lemma bind_Value {A B : Type} (m : outcome A) (k : A -> outcome B) (b : B) :
  bind m k = Value b <-> exists a, m = Value a /\ k a = Value b.
Proof.
  destruct m as [a| |e]; simpl.
  - split; [eauto|]. now intros (a' & [= <-] & Hk).
  - split; [discriminate|]. now intros (a' & [=] & _).
  - split; [discriminate|]. now intros (a' & [=] & _).
Qed.

Lemma bind_INF {A B : Type} (m : outcome A) (k : A -> outcome B) :
  bind m k = INF_RETURN <->
  m = INF_RETURN \/ exists a, m = Value a /\ k a = INF_RETURN.
Proof.
  destruct m as [a| |e]; simpl.
  - split; [eauto|]. intros [[=]|(a' & [= <-] & Hk)]. exact Hk.
  - split; [now left|reflexivity].
  - split; [discriminate|]. now intros [[=]|(a' & [=] & _)].
Qed.

Lemma getitem_not_INF {A : Type} (l : list A) (i : Z) : getitem l i <> INF_RETURN.
Proof.
  unfold getitem. case_bool_decide; [|discriminate].
  destruct (l !! _); discriminate.
Qed.

Lemma field_not_INF (d : location) (k : string) : field d k <> INF_RETURN.
Proof. unfold field. destruct (d !! k); discriminate. Qed.

Lemma get_travel_time_not_INF locations a b rounding_func :
  get_travel_time locations a b rounding_func <> INF_RETURN.
Proof.
  destruct (get_travel_time_cases locations a b rounding_func)
    as [->|(xa & ya & xb & yb & _ & _ & ->)]; discriminate.
Qed.

Lemma sum_from_not_INF {A : Type} (f : A -> outcome R) (l : list A) (acc : R) :
  (forall a, f a <> INF_RETURN) -> sum_from f l acc <> INF_RETURN.
Proof.
  intros Hf. revert acc. induction l as [|a l IH]; intros acc; simpl.
  - discriminate.
  - intros H. apply bind_INF in H as [H|(v & _ & H)].
    + now apply (Hf a).
    + now apply (IH (acc + v)%R).
Qed.

Lemma sum_from_app {A : Type} (f : A -> outcome R) (l1 l2 : list A) (acc : R) :
  sum_from f (l1 ++ l2) acc = let* s := sum_from f l1 acc in sum_from f l2 s.
Proof.
  revert acc. induction l1 as [|a l1 IH]; intros acc; simpl; [reflexivity|].
  destruct (f a) as [v| |e]; simpl; [apply IH|reflexivity|reflexivity].
Qed.

Section EvaluateFacts.

Variable locations : list location.
Variables capacity lifespan rate : R.
Variable rounding_func : option (R -> R).
Variable check_feasibility : bool.

Lemma batch_demand_not_INF batch : batch_demand locations batch <> INF_RETURN.
Proof.
  apply sum_from_not_INF. intros c H.
  apply bind_INF in H as [H|(l & _ & H)].
  - now apply getitem_not_INF in H.
  - now apply field_not_INF in H.
Qed.

Lemma divide_not_INF p : divide rate p <> INF_RETURN.
Proof. unfold divide. destruct (decide (rate = 0)%R); discriminate. Qed.

Lemma outbound_time_not_INF plant batch :
  outbound_time locations rounding_func plant batch <> INF_RETURN.
Proof.
  unfold outbound_time. intros H.
  apply bind_INF in H as [H|(first & _ & H)]; [now apply getitem_not_INF in H|].
  apply bind_INF in H as [H|(t0 & _ & H)];
    [now apply get_travel_time_not_INF in H|].
  apply bind_INF in H as [H|(legs & _ & H)]; [|discriminate].
  revert H. apply sum_from_not_INF. intros cust H.
  apply bind_INF in H as [H|(a & _ & H)]; [now apply getitem_not_INF in H|].
  apply bind_INF in H as [H|(b & _ & H)]; [now apply getitem_not_INF in H|].
  now apply get_travel_time_not_INF in H.
Qed.

Lemma return_time_not_INF plant batch :
  return_time locations rounding_func plant batch <> INF_RETURN.
Proof.
  unfold return_time. intros H.
  apply bind_INF in H as [H|(last & _ & H)]; [now apply getitem_not_INF in H|].
  now apply get_travel_time_not_INF in H.
Qed.

Abbreviation eval_batch' :=
  (eval_batch locations capacity lifespan rate rounding_func check_feasibility).
Abbreviation eval_batches' :=
  (eval_batches locations capacity lifespan rate rounding_func check_feasibility).

(** What a batch that is processed to the end has gone through. *)
Lemma eval_batch_Value plant curr_p curr_t batch next :
  eval_batch' plant (curr_p, curr_t) batch = Value next <->
  exists demand t_out back,
    batch_demand locations batch = Value demand /\
    (check_feasibility = true -> demand < capacity + EPS_VALUE)%R /\
    rate <> 0%R /\
    outbound_time locations rounding_func plant batch = Value t_out /\
    (check_feasibility = true -> t_out < lifespan + EPS_VALUE)%R /\
    return_time locations rounding_func plant batch = Value back /\
    next = merge_timelines curr_p curr_t (demand / rate) (t_out + back)
             (Rmax 0 (lifespan - t_out)).
Proof.
  unfold eval_batch. split.
  - intros H.
    apply bind_Value in H as (demand & Hd & H).
    destruct (check_feasibility && bool_decide (capacity + EPS_VALUE <= demand)%R)
      eqn:Ecap; [discriminate|].
    apply bind_Value in H as (p_time & Hp & H).
    unfold divide in Hp. destruct (decide (rate = 0)%R) as [|Hrate]; [discriminate|].
    injection Hp as <-.
    apply bind_Value in H as (t_out & Ht & H).
    destruct (check_feasibility && bool_decide (lifespan + EPS_VALUE <= t_out)%R)
      eqn:Elife; [discriminate|].
    apply bind_Value in H as (back & Hb & H). injection H as <-.
    exists demand, t_out, back.
    apply andb_false_iff in Ecap, Elife.
    repeat (split; [first [assumption | reflexivity | idtac]|]); try reflexivity.
    + intros Hc. destruct Ecap as [Ecap|Ecap]; [congruence|].
      apply bool_decide_eq_false in Ecap. lra.
    + intros Hc. destruct Elife as [Elife|Elife]; [congruence|].
      apply bool_decide_eq_false in Elife. lra.
  - intros (demand & t_out & back & Hd & Hcap & Hrate & Ht & Hlife & Hb & ->).
    rewrite Hd. simpl.
    assert (Ecap : check_feasibility
                   && bool_decide (capacity + EPS_VALUE <= demand)%R = false).
    { destruct check_feasibility; [|reflexivity]. simpl.
      apply bool_decide_eq_false. specialize (Hcap eq_refl). lra. }
    rewrite Ecap. unfold divide.
    destruct (decide (rate = 0)%R) as [|_]; [contradiction|]. simpl.
    rewrite Ht. simpl.
    assert (Elife : check_feasibility
                    && bool_decide (lifespan + EPS_VALUE <= t_out)%R = false).
    { destruct check_feasibility; [|reflexivity]. simpl.
      apply bool_decide_eq_false. specialize (Hlife eq_refl). lra. }
    rewrite Elife, Hb. reflexivity.
Qed.

(** When a batch makes [evaluate] return [INF_RETURN]. *)
Lemma eval_batch_INF plant curr batch :
  eval_batch' plant curr batch = INF_RETURN <->
  check_feasibility = true /\
  exists demand,
    batch_demand locations batch = Value demand /\
    ((capacity + EPS_VALUE <= demand)%R \/
     ((demand < capacity + EPS_VALUE)%R /\ rate <> 0%R /\
      exists t_out,
        outbound_time locations rounding_func plant batch = Value t_out /\
        (lifespan + EPS_VALUE <= t_out)%R)).
Proof.
  destruct curr as [curr_p curr_t]. unfold eval_batch. split.
  - intros H.
    apply bind_INF in H as [H|(demand & Hd & H)];
      [now apply batch_demand_not_INF in H|].
    destruct check_feasibility; simpl in H.
    2:{ exfalso.
        apply bind_INF in H as [H|(p & _ & H)]; [now apply divide_not_INF in H|].
        apply bind_INF in H as [H|(t & _ & H)];
          [now apply outbound_time_not_INF in H|].
        apply bind_INF in H as [H|(b & _ & H)];
          [now apply return_time_not_INF in H|discriminate]. }
    split; [reflexivity|]. exists demand. split; [exact Hd|].
    case_bool_decide as Hcap; [now left|right].
    split; [lra|].
    apply bind_INF in H as [H|(p & Hp & H)]; [now apply divide_not_INF in H|].
    unfold divide in Hp. destruct (decide (rate = 0)%R) as [|Hrate]; [discriminate|].
    split; [exact Hrate|].
    apply bind_INF in H as [H|(t_out & Ht & H)];
      [now apply outbound_time_not_INF in H|].
    exists t_out. split; [exact Ht|].
    case_bool_decide as Hlife; [exact Hlife|].
    apply bind_INF in H as [H|(b & _ & H)];
      [now apply return_time_not_INF in H|discriminate].
  - intros (-> & demand & Hd & Hcase). rewrite Hd. simpl.
    destruct Hcase as [Hcap|(Hcap & Hrate & t_out & Ht & Hlife)].
    + now rewrite bool_decide_eq_true_2.
    + rewrite bool_decide_eq_false_2 by lra. unfold divide.
      destruct (decide (rate = 0)%R) as [|_]; [contradiction|]. simpl.
      rewrite Ht. simpl. now rewrite bool_decide_eq_true_2.
Qed.

Lemma eval_batches_app plant curr pre post :
  eval_batches' plant curr (pre ++ post)
  = let* mid := eval_batches' plant curr pre in eval_batches' plant mid post.
Proof.
  revert curr. induction pre as [|batch pre IH]; intros curr; simpl.
  - reflexivity.
  - destruct (eval_batch' plant curr batch) as [next| |e]; simpl;
      [apply IH|reflexivity|reflexivity].
Qed.

End EvaluateFacts.

(** ** Batches of one customer *)

Lemma batch_demand_singleton locations c l d :
  (0 <= c)%Z -> locations !! Z.to_nat c = Some l -> l !! "demand"%string = Some d ->
  batch_demand locations [c] = Value (0 + d)%R.
Proof.
  intros Hc Hl Hd. unfold batch_demand, py_sum. simpl.
  rewrite (getitem_nonneg _ _ _ Hc Hl). simpl. unfold field. now rewrite Hd.
Qed.

Lemma getitem_singleton_0 (c : Z) : getitem [c] 0 = Value c.
Proof. now apply getitem_nonneg. Qed.

Lemma outbound_time_singleton locations rounding_func plant c xp yp xc yc :
  located locations plant xp yp -> located locations c xc yc ->
  outbound_time locations rounding_func plant [c]
  = Value (rounded rounding_func (euclid xp yp xc yc) + 0)%R.
Proof.
  intros Hp Hc. unfold outbound_time. rewrite getitem_singleton_0. simpl.
  now rewrite (get_travel_time_located _ _ _ _ _ _ _ _ Hp Hc).
Qed.

Lemma return_time_singleton locations rounding_func plant c xp yp xc yc :
  located locations plant xp yp -> located locations c xc yc ->
  return_time locations rounding_func plant [c]
  = Value (rounded rounding_func (euclid xc yc xp yp)).
Proof.
  intros Hp Hc. unfold return_time.
  pose proof (getitem_last [] c) as Hlast.
  change ([] ++ [c]) with [c] in Hlast. rewrite Hlast. simpl.
  now rewrite (get_travel_time_located _ _ _ _ _ _ _ _ Hc Hp).
Qed.

Lemma eval_route_single locations capacity lifespan rate rounding_func check
    plant batch next :
  eval_batch locations capacity lifespan rate rounding_func check plant (0, 0)%R batch
  = Value next ->
  eval_route locations capacity lifespan rate rounding_func check plant [batch]
  = Value (snd next).
Proof. intros H. unfold eval_route. cbn [eval_batches]. now rewrite H. Qed.

Lemma merge_timelines_free p t p_time t_time max_delay :
  (t <= p + p_time)%R ->
  merge_timelines p t p_time t_time max_delay
  = ((p + p_time)%R, (p + p_time + t_time)%R).
Proof.
  intros H. unfold merge_timelines.
  destruct (decide (t <= p + p_time)%R); [reflexivity|contradiction].
Qed.

Lemma merge_timelines_busy p t p_time t_time max_delay :
  (p + p_time < t)%R ->
  merge_timelines p t p_time t_time max_delay
  = (Rmax (p + p_time) (t - max_delay), (t + t_time)%R).
Proof.
  intros H. unfold merge_timelines.
  destruct (decide (t <= p + p_time)%R); [lra|reflexivity].
Qed.

Lemma euclid_0_0_3_4 : euclid 0 0 3 4 = 5%R.
Proof. apply sqrt_3_4. Qed.

Lemma euclid_3_4_0_0 : euclid 3 4 0 0 = 5%R.
Proof. apply sqrt_4_3. Qed.

(** A plant in [(0,0)] and a customer in [(3,4)] with demand [10], at rate
    [1]: a batch that is not rejected ends at [(10, 20)]. *)
Lemma single_customer_batch (plant customer : location) capacity lifespan check :
  plant !! "x"%string = Some 0%R -> plant !! "y"%string = Some 0%R ->
  customer !! "x"%string = Some 3%R -> customer !! "y"%string = Some 4%R ->
  customer !! "demand"%string = Some 10%R ->
  (check = true -> 10 < capacity + EPS_VALUE /\ 5 < lifespan + EPS_VALUE)%R ->
  eval_batch [plant; customer] capacity lifespan 1 None check 0 (0, 0)%R [1%Z]
  = Value (10, 20)%R.
Proof.
  intros Hpx Hpy Hcx Hcy Hcd Hlim.
  assert (Hp : located [plant; customer] 0 0 0) by now apply located_head.
  assert (Hc : located [plant; customer] 1 3 4) by now apply located_second.
  apply eval_batch_Value.
  exists (0 + 10)%R, (5 + 0)%R, 5%R.
  split.
  { apply (batch_demand_singleton _ 1 customer); [lia|reflexivity|exact Hcd]. }
  split; [intros Hchk; specialize (Hlim Hchk); lra|].
  split; [lra|].
  split.
  { rewrite <- euclid_0_0_3_4 at 1.
    exact (outbound_time_singleton _ None 0 1 0 0 3 4 Hp Hc). }
  split; [intros Hchk; specialize (Hlim Hchk); lra|].
  split.
  { rewrite <- euclid_3_4_0_0.
    exact (return_time_singleton _ None 0 1 0 0 3 4 Hp Hc). }
  rewrite merge_timelines_free by lra. f_equal; lra.
Qed.

Lemma plant_and_customer_batch capacity lifespan check :
  (check = true -> 10 < capacity + EPS_VALUE /\ 5 < lifespan + EPS_VALUE)%R ->
  eval_batch plant_and_customer capacity lifespan 1 None check 0 (0, 0)%R [1%Z]
  = Value (10, 20)%R.
Proof.
  apply single_customer_batch;
    [apply mk_location_x|apply mk_location_y|apply mk_location_x
    |apply mk_location_y|apply mk_location_demand].
Qed.

Lemma plant_and_customer_0 : located plant_and_customer 0 0 0.
Proof. apply located_head; [apply mk_location_x|apply mk_location_y]. Qed.

Lemma plant_and_customer_1 : located plant_and_customer 1 3 4.
Proof. apply located_second; [apply mk_location_x|apply mk_location_y]. Qed.

Lemma check_customers_single (plant customer : location) :
  check_customers [plant; customer] [[[1%Z]]] = Value tt.
Proof. reflexivity. Qed.

Lemma Rmax_0_20 : Rmax 0 20 = 20%R.
Proof. apply Rmax_right. lra. Qed.

Lemma plant_and_customer_makespan capacity lifespan check :
  (check = true -> 10 < capacity + EPS_VALUE /\ 5 < lifespan + EPS_VALUE)%R ->
  evaluate plant_and_customer capacity lifespan 1 None check [[[1%Z]]]
  = Value 20%R.
Proof.
  intros Hlim. unfold evaluate.
  assert (Hchk : (if check then check_customers plant_and_customer [[[1%Z]]]
                  else Value tt) = Value tt).
  { destruct check; [apply check_customers_single|reflexivity]. }
  rewrite Hchk. cbn [bind eval_routes].
  rewrite (eval_route_single _ _ _ _ _ _ _ _ (10, 20)%R).
  - cbn [bind snd]. now rewrite Rmax_0_20.
  - now apply plant_and_customer_batch.
Qed.

(** C8.  One plant in [(0,0)], one customer in [(3,4)] with demand [10],
    alone in the only batch of the only route, capacity [20], lifespan [100],
    rate [1], no rounding function: [evaluate] returns exactly [20], with and
    without the feasibility check. *)
Theorem single_batch_single_customer :
  forall (plant customer : location) (check_feasibility : bool),
    plant !! "x"%string = Some 0%R -> plant !! "y"%string = Some 0%R ->
    customer !! "x"%string = Some 3%R -> customer !! "y"%string = Some 4%R ->
    customer !! "demand"%string = Some 10%R ->
    evaluate [plant; customer] 20 100 1 None check_feasibility [[[1%Z]]]
    = Value 20%R.
Proof.
  intros plant customer check Hpx Hpy Hcx Hcy Hcd. unfold evaluate.
  assert (Hchk : (if check then check_customers [plant; customer] [[[1%Z]]]
                  else Value tt) = Value tt).
  { destruct check; [apply check_customers_single|reflexivity]. }
  rewrite Hchk. cbn [bind eval_routes].
  rewrite (eval_route_single _ _ _ _ _ _ _ _ (10, 20)%R).
  - cbn [bind snd]. now rewrite Rmax_0_20.
  - apply single_customer_batch; try assumption.
    intros _. unfold EPS_VALUE. lra.
Qed.

Lemma single_batch_single_customer_witness :
  evaluate plant_and_customer 20 100 1 None true [[[1%Z]]] = Value 20%R.
Proof.
  exact (single_batch_single_customer (mk_location 0 0 0) (mk_location 3 4 10) true
           (mk_location_x 0 0 0) (mk_location_y 0 0 0)
           (mk_location_x 3 4 10) (mk_location_y 3 4 10)
           (mk_location_demand 3 4 10)).
Defined.

(** C1.  A batch that is processed to the end after the batches [pre] of its
    route moves the two clocks by the two-case rule: with
    [earliest_p_finish = curr_p_finish + p_time], [p_time] the demand of the
    batch over [rate], [t_full] the outbound time plus the return leg and
    [max_delay = max(0, lifespan - t_out)], either the vehicle is back in
    time and the batch leaves at [earliest_p_finish], or the batch leaves at
    [curr_t_finish] and its production finish is
    [max(earliest_p_finish, curr_t_finish - max_delay)]. *)
Theorem timeline_merge_rule :
  forall locations capacity lifespan rate rounding_func check_feasibility
         (plant : Z) (pre : list (list Z)) (batch : list Z)
         (curr_p_finish curr_t_finish next_p_finish next_t_finish : R),
    eval_batches locations capacity lifespan rate rounding_func check_feasibility
      plant (0, 0)%R pre = Value (curr_p_finish, curr_t_finish) ->
    eval_batch locations capacity lifespan rate rounding_func check_feasibility
      plant (curr_p_finish, curr_t_finish) batch
    = Value (next_p_finish, next_t_finish) ->
    eval_batches locations capacity lifespan rate rounding_func check_feasibility
      plant (0, 0)%R (pre ++ [batch]) = Value (next_p_finish, next_t_finish) /\
    exists demand t_out back,
      batch_demand locations batch = Value demand /\
      outbound_time locations rounding_func plant batch = Value t_out /\
      return_time locations rounding_func plant batch = Value back /\
      let p_time := (demand / rate)%R in
      let t_full := (t_out + back)%R in
      let max_delay := Rmax 0 (lifespan - t_out) in
      let earliest_p_finish := (curr_p_finish + p_time)%R in
      ((curr_t_finish <= earliest_p_finish)%R ->
       next_p_finish = earliest_p_finish /\
       next_t_finish = (next_p_finish + t_full)%R) /\
      ((earliest_p_finish < curr_t_finish)%R ->
       next_t_finish = (curr_t_finish + t_full)%R /\
       next_p_finish = Rmax earliest_p_finish (curr_t_finish - max_delay)).
Proof.
  intros locations capacity lifespan rate rounding_func check plant pre batch
         curr_p curr_t next_p next_t Hpre Hbatch.
  split.
  { rewrite eval_batches_app, Hpre. cbn [bind eval_batches]. now rewrite Hbatch. }
  apply eval_batch_Value in Hbatch
    as (demand & t_out & back & Hd & _ & _ & Ht & _ & Hb & Hnext).
  exists demand, t_out, back.
  split; [exact Hd|]. split; [exact Ht|]. split; [exact Hb|].
  cbv zeta. split; intros Hcase.
  - rewrite merge_timelines_free in Hnext by exact Hcase.
    injection Hnext as -> ->. split; reflexivity.
  - rewrite merge_timelines_busy in Hnext by exact Hcase.
    injection Hnext as -> ->. split; reflexivity.
Qed.

Lemma timeline_merge_rule_witness :
  eval_batches plant_and_customer 20 100 1 None true 0 (0, 0)%R ([] ++ [[1%Z]])
  = Value (10, 20)%R.
Proof.
  exact (proj1 (timeline_merge_rule plant_and_customer 20 100 1 None true 0 []
                  [1%Z] 0 0 10 20 eq_refl
                  (plant_and_customer_batch 20 100 true
                     (fun _ => ltac:(unfold EPS_VALUE; lra))))).
Defined.

(** ** Routes and solutions *)

Section RouteFacts.

Variable locations : list location.
Variables capacity lifespan rate : R.
Variable rounding_func : option (R -> R).
Variable check_feasibility : bool.

Abbreviation eval_batch_ :=
  (eval_batch locations capacity lifespan rate rounding_func check_feasibility).
Abbreviation eval_batches_ :=
  (eval_batches locations capacity lifespan rate rounding_func check_feasibility).
Abbreviation eval_route_ :=
  (eval_route locations capacity lifespan rate rounding_func check_feasibility).
Abbreviation eval_routes_ :=
  (eval_routes locations capacity lifespan rate rounding_func check_feasibility).

(** Every batch of a route that is processed to the end has been. *)
Lemma eval_batches_Value plant curr route fin :
  eval_batches_ plant curr route = Value fin ->
  forall batch, batch ∈ route ->
    exists before after, eval_batch_ plant before batch = Value after.
Proof.
  revert curr. induction route as [|b route IH]; intros curr H batch Hin.
  - now apply elem_of_nil in Hin.
  - cbn [eval_batches] in H. apply bind_Value in H as (next & Hb & H).
    apply elem_of_cons in Hin as [->|Hin]; [eauto|].
    exact (IH next H batch Hin).
Qed.

Lemma eval_route_Value plant route finish :
  eval_route_ plant route = Value finish ->
  forall batch, batch ∈ route ->
    exists before after, eval_batch_ plant before batch = Value after.
Proof.
  unfold eval_route. intros H.
  apply bind_Value in H as (fin & H & _). exact (eval_batches_Value _ _ _ _ H).
Qed.

Lemma eval_routes_Value plant routes makespan result :
  eval_routes_ plant routes makespan = Value result ->
  forall (i : nat) route, routes !! i = Some route ->
    exists finish, eval_route_ (plant + Z.of_nat i) route = Value finish.
Proof.
  revert plant makespan.
  induction routes as [|r routes IH]; intros plant makespan H i route Hi.
  - discriminate Hi.
  - cbn [eval_routes] in H. apply bind_Value in H as (f & Hf & H).
    destruct i as [|i].
    + injection Hi as <-. exists f. now rewrite Z.add_0_r.
    + destruct (IH _ _ H i route Hi) as (finish & Hfin).
      exists finish. rewrite <- Hfin. f_equal. lia.
Qed.

Lemma eval_batches_INF plant curr route :
  eval_batches_ plant curr route = INF_RETURN -> check_feasibility = true.
Proof.
  revert curr. induction route as [|b route IH]; intros curr H.
  - discriminate H.
  - cbn [eval_batches] in H. apply bind_INF in H as [H|(next & _ & H)].
    + now apply eval_batch_INF in H.
    + exact (IH next H).
Qed.

Lemma eval_routes_INF plant routes makespan :
  eval_routes_ plant routes makespan = INF_RETURN -> check_feasibility = true.
Proof.
  revert plant makespan.
  induction routes as [|r routes IH]; intros plant makespan H.
  - discriminate H.
  - cbn [eval_routes] in H. apply bind_INF in H as [H|(f & _ & H)].
    + unfold eval_route in H. apply bind_INF in H as [H|(fin & _ & H)];
        [exact (eval_batches_INF _ _ _ H)|discriminate].
    + exact (IH _ _ H).
Qed.

(** An empty batch: the capacity test sees a demand of [0], the division by
    [rate] comes next, and [batch[0]] raises [IndexError]. *)
Lemma eval_batch_nil plant curr :
  eval_batch_ plant curr []
  = if check_feasibility && bool_decide (capacity + EPS_VALUE <= 0)%R
    then INF_RETURN
    else if decide (rate = 0)%R then Raise ZeroDivisionError
         else Raise IndexError.
Proof.
  destruct curr as [p t]. unfold eval_batch, batch_demand, py_sum.
  cbn [sum_from bind].
  destruct (check_feasibility && bool_decide (capacity + EPS_VALUE <= 0)%R);
    [reflexivity|].
  unfold divide. destruct (decide (rate = 0)%R); [reflexivity|].
  cbn [bind]. unfold outbound_time. now rewrite getitem_nil.
Qed.

Lemma eval_batch_nil_not_Value plant curr next :
  eval_batch_ plant curr [] <> Value next.
Proof.
  rewrite eval_batch_nil.
  destruct (check_feasibility && _); [discriminate|].
  destruct (decide (rate = 0)%R); discriminate.
Qed.

End RouteFacts.

Lemma check_customers_cases locations solution :
  check_customers locations solution = Value tt \/
  check_customers locations solution = INF_RETURN.
Proof.
  unfold check_customers. case_bool_decide; [now right|].
  generalize (visited_customers solution) 0%Z.
  induction l as [|v l IH]; intros i; cbn [check_visited]; [now left|].
  case_bool_decide; [now right|apply IH].
Qed.

Lemma evaluate_unchecked locations capacity lifespan rate rounding_func solution :
  evaluate locations capacity lifespan rate rounding_func false solution
  = eval_routes locations capacity lifespan rate rounding_func false 0 solution 0%R.
Proof. reflexivity. Qed.


Lemma evaluate_coverage_fails locations capacity lifespan rate rounding_func
    solution :
  check_customers locations solution <> Value tt ->
  evaluate locations capacity lifespan rate rounding_func true solution
  = INF_RETURN.
Proof.
  intros H. unfold evaluate.
  destruct (check_customers_cases locations solution) as [Hc|Hc];
    [contradiction|now rewrite Hc].
Qed.

(** Without the feasibility check nothing returns [INF_RETURN]. *)
Lemma evaluate_unchecked_not_INF locations capacity lifespan rate rounding_func
    solution :
  evaluate locations capacity lifespan rate rounding_func false solution
  <> INF_RETURN.
Proof.
  rewrite evaluate_unchecked. intros H.
  apply eval_routes_INF in H. discriminate H.
Qed.

(** The batches of a solution with a makespan have all been processed. *)
Lemma evaluate_Value_batches locations capacity lifespan rate rounding_func
    check solution m :
  evaluate locations capacity lifespan rate rounding_func check solution = Value m ->
  forall (plant : nat) route batch,
    solution !! plant = Some route -> batch ∈ route ->
    exists before after,
      eval_batch locations capacity lifespan rate rounding_func check
        (Z.of_nat plant) before batch = Value after.
Proof.
  unfold evaluate. intros H plant route batch Hroute Hin.
  apply bind_Value in H as (_ & _ & H).
  destruct (eval_routes_Value _ _ _ _ _ _ _ _ _ _ H plant route Hroute)
    as (finish & Hfin).
  rewrite Z.add_0_l in Hfin.
  exact (eval_route_Value _ _ _ _ _ _ _ _ _ Hfin batch Hin).
Qed.

(** ** The feasibility switch *)

(** C2, refuted: without the feasibility check, a batch whose demand [10]
    exceeds the capacity [5] and whose outbound time [5] exceeds the lifespan
    [2] is scored like any other; [evaluate] returns the makespan [20]. *)
Lemma unchecked_violation_scored :
  batch_demand plant_and_customer [1%Z] = Value (0 + 10)%R /\
  (5 + EPS_VALUE <= 0 + 10)%R /\
  outbound_time plant_and_customer None 0 [1%Z] = Value (5 + 0)%R /\
  (2 + EPS_VALUE <= 5 + 0)%R /\
  evaluate plant_and_customer 5 2 1 None false [[[1%Z]]] = Value 20%R.
Proof.
  split.
  { apply (batch_demand_singleton _ 1 (mk_location 3 4 10));
      [lia|reflexivity|apply mk_location_demand]. }
  split; [unfold EPS_VALUE; lra|].
  split.
  { rewrite <- euclid_0_0_3_4.
    exact (outbound_time_singleton _ None 0 1 0 0 3 4
             plant_and_customer_0 plant_and_customer_1). }
  split; [unfold EPS_VALUE; lra|].
  apply plant_and_customer_makespan. discriminate.
Qed.

(** C2, amended.  The capacity and lifespan tests are behind
    [check_feasibility]: without it [evaluate] never returns [INF_RETURN];
    with it a batch whose demand reaches [capacity + EPS_VALUE], or whose
    outbound time reaches [lifespan + EPS_VALUE], returns [INF_RETURN] on the
    spot, so that a solution with a makespan has no such batch. *)
Theorem feasibility_checks_gated :
  forall locations capacity lifespan rate rounding_func
         (solution : list (list (list Z))),
    evaluate locations capacity lifespan rate rounding_func false solution
    <> INF_RETURN /\
    (forall plant curr batch demand,
        batch_demand locations batch = Value demand ->
        (capacity + EPS_VALUE <= demand)%R ->
        eval_batch locations capacity lifespan rate rounding_func true plant curr batch
        = INF_RETURN) /\
    (forall plant curr batch demand t_out,
        batch_demand locations batch = Value demand ->
        (demand < capacity + EPS_VALUE)%R -> rate <> 0%R ->
        outbound_time locations rounding_func plant batch = Value t_out ->
        (lifespan + EPS_VALUE <= t_out)%R ->
        eval_batch locations capacity lifespan rate rounding_func true plant curr batch
        = INF_RETURN) /\
    (forall m,
        evaluate locations capacity lifespan rate rounding_func true solution
        = Value m ->
        forall (plant : nat) route batch,
          solution !! plant = Some route -> batch ∈ route ->
          exists demand t_out,
            batch_demand locations batch = Value demand /\
            (demand < capacity + EPS_VALUE)%R /\
            outbound_time locations rounding_func (Z.of_nat plant) batch
            = Value t_out /\
            (t_out < lifespan + EPS_VALUE)%R).
Proof.
  intros locations capacity lifespan rate rounding_func solution.
  split; [apply evaluate_unchecked_not_INF|].
  split; [|split].
  - intros plant curr batch demand Hd Hcap. apply eval_batch_INF.
    split; [reflexivity|]. exists demand. split; [exact Hd|now left].
  - intros plant curr batch demand t_out Hd Hcap Hrate Ht Hlife.
    apply eval_batch_INF. split; [reflexivity|]. exists demand.
    split; [exact Hd|right]. split; [exact Hcap|]. split; [exact Hrate|].
    exists t_out. now split.
  - intros m H plant route batch Hroute Hin.
    destruct (evaluate_Value_batches _ _ _ _ _ _ _ _ H plant route batch Hroute Hin)
      as ([p t] & after & Hb).
    apply eval_batch_Value in Hb
      as (demand & t_out & back & Hd & Hcap & _ & Ht & Hlife & _).
    exists demand, t_out. auto.
Qed.

Lemma feasibility_checks_gated_witness :
  evaluate plant_and_customer 5 2 1 None false [[[1%Z]]] <> INF_RETURN /\
  eval_batch plant_and_customer 5 2 1 None true 0 (0, 0)%R [1%Z] = INF_RETURN.
Proof.
  destruct (feasibility_checks_gated plant_and_customer 5 2 1 None [[[1%Z]]])
    as (Hoff & Hcap & _).
  split; [exact Hoff|].
  apply (Hcap 0%Z (0, 0)%R [1%Z] (0 + 10)%R).
  - apply (batch_demand_singleton _ 1 (mk_location 3 4 10));
      [lia|reflexivity|apply mk_location_demand].
  - unfold EPS_VALUE. lra.
Defined.

(** ** Empty batches *)

(** C10, refuted: the only route holds the batch [[1]] and an empty batch,
    the coverage test passes, and [evaluate] returns [INF_RETURN] because the
    first batch exceeds the capacity [5]: no exception is raised. *)
Lemma empty_batch_INF_RETURN :
  check_customers plant_and_customer [[[1%Z]; []]] = Value tt /\
  evaluate plant_and_customer 5 100 1 None true [[[1%Z]; []]] = INF_RETURN.
Proof.
  split; [reflexivity|].
  unfold evaluate.
  replace (check_customers plant_and_customer [[[1%Z]; []]]) with (Value tt)
    by reflexivity.
  cbn [bind eval_routes]. unfold eval_route. cbn [eval_batches].
  assert (H : eval_batch plant_and_customer 5 100 1 None true 0 (0, 0)%R [1%Z]
              = INF_RETURN).
  { apply eval_batch_INF. split; [reflexivity|]. exists (0 + 10)%R. split.
    - apply (batch_demand_singleton _ 1 (mk_location 3 4 10));
        [lia|reflexivity|apply mk_location_demand].
    - left. unfold EPS_VALUE. lra. }
  now rewrite H.
Qed.

Lemma eval_batches_empty_batch locations capacity lifespan rate rounding_func check
    plant curr route fin :
  [] ∈ route ->
  eval_batches locations capacity lifespan rate rounding_func check plant curr route
  <> Value fin.
Proof.
  intros Hin H.
  destruct (eval_batches_Value _ _ _ _ _ _ _ _ _ _ H [] Hin) as (b & a & Hb).
  now apply eval_batch_nil_not_Value in Hb.
Qed.

(** C10, amended.  A solution with an empty batch never gets a makespan.
    Without the feasibility check [evaluate] raises an exception.  With it
    the outcome is an exception or [INF_RETURN], whichever the run meets
    first; the empty batch itself raises as soon as it is reached, unless
    [capacity + EPS_VALUE <= 0]. *)
Theorem empty_batch_no_makespan :
  forall locations capacity lifespan rate rounding_func check_feasibility
         (solution : list (list (list Z))) (route : list (list Z)),
    route ∈ solution -> [] ∈ route ->
    (forall m, evaluate locations capacity lifespan rate rounding_func
                 check_feasibility solution <> Value m) /\
    (check_feasibility = false ->
     is_fault (evaluate locations capacity lifespan rate rounding_func
                 check_feasibility solution)) /\
    (forall plant curr,
        check_feasibility = false \/ (0 < capacity + EPS_VALUE)%R ->
        is_fault (eval_batch locations capacity lifespan rate rounding_func
                    check_feasibility plant curr [])).
Proof.
  intros locations capacity lifespan rate rounding_func check solution route
         Hroute Hempty.
  assert (Hno : forall m, evaluate locations capacity lifespan rate rounding_func
                            check solution <> Value m).
  { intros m H. apply list_elem_of_lookup in Hroute as [plant Hplant].
    destruct (evaluate_Value_batches _ _ _ _ _ _ _ _ H plant route [] Hplant Hempty)
      as (b & a & Hb).
    now apply eval_batch_nil_not_Value in Hb. }
  split; [exact Hno|]. split.
  - intros ->.
    pose proof (evaluate_unchecked_not_INF locations capacity lifespan rate
                  rounding_func solution) as Hinf.
    destruct (evaluate locations capacity lifespan rate rounding_func false solution)
      as [m| |e].
    + now destruct (Hno m).
    + now destruct Hinf.
    + now exists e.
  - intros plant curr Hcase. rewrite eval_batch_nil.
    assert (Hgo : check && bool_decide (capacity + EPS_VALUE <= 0)%R = false).
    { destruct Hcase as [->|Hpos]; [reflexivity|].
      rewrite bool_decide_eq_false_2 by lra. apply andb_false_r. }
    rewrite Hgo. destruct (decide (rate = 0)%R); eexists; reflexivity.
Qed.

Lemma empty_batch_no_makespan_witness :
  is_fault (evaluate plant_and_customer 20 100 1 None false [[[1%Z]; []]]).
Proof.
  refine (proj1 (proj2 (empty_batch_no_makespan plant_and_customer 20 100 1 None
                          false [[[1%Z]; []]] [[1%Z]; []] _ _)) eq_refl).
  - apply list_elem_of_here.
  - apply list_elem_of_further, list_elem_of_here.
Defined.

(** ** Coverage *)

Lemma check_visited_Value visited i nplants :
  check_visited visited i nplants = Value tt <->
  visited = seqZ (i + nplants) (len visited).
Proof.
  revert i. induction visited as [|v rest IH]; intros i; cbn [check_visited].
  - split; [|reflexivity]. intros _. reflexivity.
  - assert (Hlen : len (v :: rest) = Z.succ (len rest)).
    { unfold len. cbn [length]. lia. }
    rewrite Hlen, seqZ_cons by (unfold len; lia). rewrite Z.pred_succ.
    case_bool_decide as Hv.
    + split; [discriminate|]. intros [= Hv' _]. contradiction.
    + subst v. rewrite IH.
      replace (i + 1 + nplants)%Z with (Z.succ (i + nplants)) by lia.
      split; [now intros <-|]. now intros [= <-].
Qed.

Lemma Sorted_seqZ m n : Sorted Z.le (seqZ m n).
Proof.
  destruct (Z.le_gt_cases n 0) as [Hn|Hn]; [rewrite seqZ_nil by lia; constructor|].
  rewrite <- (Z2Nat.id n) by lia. generalize (Z.to_nat n) as k. clear n Hn.
  intros k. revert m. induction k as [|k IH]; intros m.
  - rewrite seqZ_nil by lia. constructor.
  - rewrite seqZ_cons by lia.
    replace (Z.pred (Z.of_nat (S k))) with (Z.of_nat k) by lia.
    constructor; [apply IH|].
    destruct k as [|k]; [rewrite seqZ_nil by lia; constructor|].
    rewrite seqZ_cons by lia. constructor. lia.
Qed.

Lemma len_visited_customers solution :
  len (visited_customers solution) = len (concat (concat solution)).
Proof.
  unfold len, visited_customers. f_equal.
  apply Permutation_length, merge_sort_Permutation.
Qed.

Lemma visited_customers_seqZ solution m n :
  visited_customers solution = seqZ m n <-> concat (concat solution) ≡ₚ seqZ m n.
Proof.
  unfold visited_customers. split.
  - intros <-. symmetry. apply merge_sort_Permutation.
  - intros Hperm. apply (Sorted_unique Z.le).
    + apply Sorted_merge_sort. apply _.
    + apply Sorted_seqZ.
    + now rewrite merge_sort_Permutation.
Qed.

(** The coverage test passes exactly when the visited customers are a
    rearrangement of [nplants, ..., len(locations)-1]. *)
Lemma check_customers_Value locations solution :
  (len solution <= len locations)%Z ->
  check_customers locations solution = Value tt <->
  concat (concat solution) ≡ₚ seqZ (len solution) (len locations - len solution).
Proof.
  intros Hplants. unfold check_customers.
  rewrite <- visited_customers_seqZ.
  case_bool_decide as Hlen.
  - split; [discriminate|]. intros Hv. exfalso. apply Hlen.
    rewrite Hv at 1. unfold len at 1. rewrite length_seqZ. lia.
  - rewrite check_visited_Value, Hlen.
    now rewrite Z.add_0_l.
Qed.

(** A wrong number of visited customers fails the test. *)
Lemma check_customers_count locations solution :
  check_customers locations solution = Value tt ->
  len (concat (concat solution)) = (len locations - len solution)%Z.
Proof.
  unfold check_customers. case_bool_decide as Hlen; [discriminate|].
  intros _. now rewrite <- len_visited_customers.
Qed.

(** An index outside [nplants .. len(locations)-1] fails the test. *)
Lemma check_customers_range locations solution c :
  check_customers locations solution = Value tt ->
  c ∈ concat (concat solution) ->
  (len solution <= c < len locations)%Z.
Proof.
  intros Hc Hin. pose proof (check_customers_count _ _ Hc) as Hcount.
  unfold check_customers in Hc. case_bool_decide; [discriminate|].
  apply check_visited_Value in Hc. rewrite Z.add_0_l in Hc.
  assert (Hin' : c ∈ visited_customers solution).
  { unfold visited_customers. now rewrite merge_sort_Permutation. }
  rewrite Hc, elem_of_seqZ, len_visited_customers, Hcount in Hin'. lia.
Qed.

(** C3.  With one route per plant, the coverage test passes exactly when
    the customers of all batches of all routes, taken with their
    multiplicity, are [nplants, ..., len(locations)-1], each once.  When the
    test does not pass, [evaluate] returns [INF_RETURN]: so it does for a
    covering solution from which one customer is taken away, or to which one
    customer is added again, and for a solution that visits an index outside
    the range. *)
Theorem coverage_completeness :
  forall locations capacity lifespan rate rounding_func
         (solution : list (list (list Z))),
    (len solution <= len locations)%Z ->
    (check_customers locations solution = Value tt <->
     concat (concat solution)
       ≡ₚ seqZ (len solution) (len locations - len solution)) /\
    (check_customers locations solution <> Value tt ->
     evaluate locations capacity lifespan rate rounding_func true solution
     = INF_RETURN) /\
    (forall (solution' : list (list (list Z))) (c : Z),
        check_customers locations solution = Value tt ->
        length solution' = length solution ->
        concat (concat solution) ≡ₚ c :: concat (concat solution') \/
        concat (concat solution') ≡ₚ c :: concat (concat solution) ->
        evaluate locations capacity lifespan rate rounding_func true solution'
        = INF_RETURN) /\
    (forall c : Z,
        c ∈ concat (concat solution) ->
        (c < len solution \/ len locations <= c)%Z ->
        evaluate locations capacity lifespan rate rounding_func true solution
        = INF_RETURN).
Proof.
  intros locations capacity lifespan rate rounding_func solution Hplants.
  split; [now apply check_customers_Value|].
  split; [apply evaluate_coverage_fails|]. split.
  - intros solution' c Hok Hsame Hperm.
    apply evaluate_coverage_fails. intros Hok'.
    apply check_customers_count in Hok, Hok'.
    assert (Hlen : len solution' = len solution) by (unfold len; lia).
    rewrite Hlen in Hok'. unfold len in Hok, Hok'.
    destruct Hperm as [Hperm|Hperm]; apply Permutation_length in Hperm;
      cbn [length] in Hperm; lia.
  - intros c Hin Hout. apply evaluate_coverage_fails. intros Hok.
    pose proof (check_customers_range _ _ _ Hok Hin). lia.
Qed.

Lemma coverage_completeness_witness :
  evaluate plant_and_customer 20 100 1 None true [[[1%Z; 1%Z]]] = INF_RETURN /\
  evaluate plant_and_customer 20 100 1 None true [[[]]] = INF_RETURN /\
  evaluate plant_and_customer 20 100 1 None true [[[0%Z]]] = INF_RETURN.
Proof.
  assert (Hplants : (len [[[1%Z]]] <= len plant_and_customer)%Z).
  { unfold len. cbn [length plant_and_customer]. lia. }
  assert (Hplants0 : (len [[[0%Z]]] <= len plant_and_customer)%Z).
  { unfold len. cbn [length plant_and_customer]. lia. }
  destruct (coverage_completeness plant_and_customer 20 100 1 None [[[1%Z]]] Hplants)
    as (_ & _ & Hchange & _).
  destruct (coverage_completeness plant_and_customer 20 100 1 None [[[0%Z]]] Hplants0)
    as (_ & _ & _ & Hrange).
  split; [|split].
  - apply (Hchange [[[1%Z; 1%Z]]] 1%Z); [reflexivity|reflexivity|].
    right. reflexivity.
  - apply (Hchange [[[]]] 1%Z); [reflexivity|reflexivity|].
    left. reflexivity.
  - apply (Hrange 0%Z); [apply list_elem_of_here|].
    left. unfold len. cbn [length]. lia.
Defined.

(** ** Travel along a batch *)

Lemma getitem_middle {A : Type} (pre : list A) (a : A) (post : list A) :
  getitem (pre ++ a :: post) (len pre) = Value a.
Proof.
  apply getitem_nonneg; [unfold len; lia|].
  unfold len. rewrite Nat2Z.id. now rewrite list_lookup_middle.
Qed.

Lemma legs_by_index locations rounding_func (pre : list Z) (a : Z) (rest : list Z)
    (acc : R) :
  sum_from (fun cust =>
              let* x := getitem (pre ++ a :: rest) (cust - 1) in
              let* y := getitem (pre ++ a :: rest) cust in
              get_travel_time locations x y rounding_func)
           (seqZ (len pre + 1) (len rest)) acc
  = legs_from locations rounding_func a rest acc.
Proof.
  revert pre a acc. induction rest as [|b rest IH]; intros pre a acc.
  - reflexivity.
  - assert (Hlen : len (b :: rest) = Z.succ (len rest)).
    { unfold len. cbn [length]. lia. }
    rewrite Hlen, seqZ_cons by (unfold len; lia). rewrite Z.pred_succ.
    cbn [sum_from legs_from].
    replace (len pre + 1 - 1)%Z with (len pre) by lia.
    rewrite getitem_middle. cbn [bind].
    assert (Hb : getitem (pre ++ a :: b :: rest) (len pre + 1) = Value b).
    { replace (pre ++ a :: b :: rest) with ((pre ++ [a]) ++ b :: rest)
        by now rewrite <- app_assoc.
      replace (len pre + 1)%Z with (len (pre ++ [a]))
        by (unfold len; rewrite length_app; cbn [length]; lia).
      apply getitem_middle. }
    rewrite Hb. cbn [bind].
    destruct (get_travel_time locations a b rounding_func) as [leg| |e];
      cbn [bind]; [|reflexivity|reflexivity].
    specialize (IH (pre ++ [a]) b (acc + leg)%R).
    replace ((pre ++ [a]) ++ b :: rest) with (pre ++ a :: b :: rest) in IH
      by now rewrite <- app_assoc.
    replace (len (pre ++ [a]) + 1)%Z with (Z.succ (len pre + 1)) in IH
      by (unfold len; rewrite length_app; cbn [length]; lia).
    exact IH.
Qed.

(** The outbound time is the leg from the plant to the first customer plus
    the legs between consecutive customers. *)
Lemma outbound_time_legs locations rounding_func plant first rest :
  outbound_time locations rounding_func plant (first :: rest)
  = let* t_time := get_travel_time locations plant first rounding_func in
    let* legs := legs_from locations rounding_func first rest 0 in
    Value (t_time + legs)%R.
Proof.
  unfold outbound_time.
  rewrite (getitem_nonneg (first :: rest) 0 first) by (lia || reflexivity).
  cbn [bind]. unfold py_sum, range.
  assert (Hlen : (len (first :: rest) - 1)%Z = len rest).
  { unfold len. cbn [length]. lia. }
  rewrite Hlen.
  pose proof (legs_by_index locations rounding_func [] first rest 0) as Hlegs.
  change (len [] + 1)%Z with 1%Z in Hlegs. cbn [app] in Hlegs.
  now rewrite Hlegs.
Qed.

Lemma return_time_last locations rounding_func plant pre last :
  return_time locations rounding_func plant (pre ++ [last])
  = get_travel_time locations last plant rounding_func.
Proof. unfold return_time. now rewrite getitem_last. Qed.

Lemma outbound_time_pair locations rounding_func plant c1 c2 xp yp x1 y1 x2 y2 :
  located locations plant xp yp -> located locations c1 x1 y1 ->
  located locations c2 x2 y2 ->
  outbound_time locations rounding_func plant [c1; c2]
  = Value (rounded rounding_func (euclid xp yp x1 y1)
           + (0 + rounded rounding_func (euclid x1 y1 x2 y2)))%R.
Proof.
  intros Hp H1 H2. rewrite outbound_time_legs. cbn [legs_from].
  rewrite (get_travel_time_located _ _ _ _ _ _ _ _ Hp H1). cbn [bind].
  now rewrite (get_travel_time_located _ _ _ _ _ _ _ _ H1 H2).
Qed.

(** ** The merge of the two timelines *)

Lemma merge_timelines_max p t p_time t_time max_delay :
  (0 <= max_delay)%R ->
  merge_timelines p t p_time t_time max_delay
  = (Rmax (p + p_time) (t - max_delay), (Rmax (p + p_time) t + t_time)%R).
Proof.
  intros Hd. unfold merge_timelines.
  destruct (decide (t <= p + p_time)%R) as [Hle|Hgt].
  - f_equal.
    + symmetry. apply Rmax_left. lra.
    + f_equal. symmetry. apply Rmax_left. exact Hle.
  - f_equal. f_equal. symmetry. apply Rmax_right. lra.
Qed.

Lemma max_delay_nonneg lifespan t_out : (0 <= Rmax 0 (lifespan - t_out))%R.
Proof. apply Rmax_l. Qed.

(** ** Tolerances *)

Lemma eval_batch_lifespan_test locations capacity lifespan rate rounding_func
    plant curr batch demand t_out :
  batch_demand locations batch = Value demand ->
  (demand < capacity + EPS_VALUE)%R -> rate <> 0%R ->
  outbound_time locations rounding_func plant batch = Value t_out ->
  eval_batch locations capacity lifespan rate rounding_func true plant curr batch
  = INF_RETURN <-> (lifespan + EPS_VALUE <= t_out)%R.
Proof.
  intros Hd Hlt Hrate Ht. rewrite eval_batch_INF. split.
  - intros (_ & demand' & Hd' & Hcase).
    rewrite Hd in Hd'. injection Hd' as <-.
    destruct Hcase as [Hle|(_ & _ & t_out' & Ht' & Hle)]; [lra|].
    rewrite Ht in Ht'. now injection Ht' as <-.
  - intros Hle. split; [reflexivity|]. exists demand. split; [exact Hd|right].
    split; [exact Hlt|]. split; [exact Hrate|]. exists t_out. now split.
Qed.

Lemma plant_and_customer_demand :
  batch_demand plant_and_customer [1%Z] = Value (0 + 10)%R.
Proof.
  apply (batch_demand_singleton _ 1 (mk_location 3 4 10));
    [lia|reflexivity|apply mk_location_demand].
Qed.

Lemma plant_and_customer_outbound rounding_func :
  outbound_time plant_and_customer rounding_func 0 [1%Z]
  = Value (rounded rounding_func (euclid 0 0 3 4) + 0)%R.
Proof.
  exact (outbound_time_singleton _ rounding_func 0 1 0 0 3 4
           plant_and_customer_0 plant_and_customer_1).
Qed.

Lemma plant_and_customer_return rounding_func :
  return_time plant_and_customer rounding_func 0 [1%Z]
  = Value (rounded rounding_func (euclid 3 4 0 0)).
Proof.
  exact (return_time_singleton _ rounding_func 0 1 0 0 3 4
           plant_and_customer_0 plant_and_customer_1).
Qed.

(** ** Outbound time and return leg *)

(** C5.  The outbound time of a batch is the leg from the plant to the
    first customer plus the legs between consecutive customers, every leg
    being one result of [get_travel_time], hence rounded on its own.  The
    lifespan test reads the outbound time alone: the leg from the last
    customer back to the plant plays no part in it, and is added afterwards to
    the time by which the vehicle clock advances. *)
Theorem lifespan_on_outbound :
  forall locations capacity lifespan rate rounding_func (plant : Z)
         (batch : list Z),
    (forall first rest, batch = first :: rest ->
       outbound_time locations rounding_func plant batch
       = let* t_time := get_travel_time locations plant first rounding_func in
         let* legs := legs_from locations rounding_func first rest 0 in
         Value (t_time + legs)%R) /\
    (forall c1 c2 xp yp x1 y1 x2 y2,
       batch = [c1; c2] -> located locations plant xp yp ->
       located locations c1 x1 y1 -> located locations c2 x2 y2 ->
       outbound_time locations rounding_func plant batch
       = Value (rounded rounding_func (euclid xp yp x1 y1)
                + (0 + rounded rounding_func (euclid x1 y1 x2 y2)))%R) /\
    (forall pre last, batch = pre ++ [last] ->
       return_time locations rounding_func plant batch
       = get_travel_time locations last plant rounding_func) /\
    (forall curr demand t_out back,
       batch_demand locations batch = Value demand ->
       (demand < capacity + EPS_VALUE)%R -> rate <> 0%R ->
       outbound_time locations rounding_func plant batch = Value t_out ->
       return_time locations rounding_func plant batch = Value back ->
       (eval_batch locations capacity lifespan rate rounding_func true plant curr
          batch = INF_RETURN <-> (lifespan + EPS_VALUE <= t_out)%R)) /\
    (forall check_feasibility curr_p_finish curr_t_finish next_p_finish
            next_t_finish,
       eval_batch locations capacity lifespan rate rounding_func check_feasibility
         plant (curr_p_finish, curr_t_finish) batch
       = Value (next_p_finish, next_t_finish) ->
       exists demand t_out back,
         batch_demand locations batch = Value demand /\
         outbound_time locations rounding_func plant batch = Value t_out /\
         return_time locations rounding_func plant batch = Value back /\
         (check_feasibility = true -> t_out < lifespan + EPS_VALUE)%R /\
         next_t_finish
         = (Rmax (curr_p_finish + demand / rate) curr_t_finish + (t_out + back))%R).
Proof.
  intros locations capacity lifespan rate rounding_func plant batch.
  split; [intros first rest ->; apply outbound_time_legs|].
  split; [intros c1 c2 xp yp x1 y1 x2 y2 ->; apply outbound_time_pair|].
  split; [intros pre last ->; apply return_time_last|]. split.
  - intros curr demand t_out back Hd Hcap Hrate Ht Hb.
    exact (eval_batch_lifespan_test _ _ _ _ _ _ _ _ _ _ Hd Hcap Hrate Ht).
  - intros check p t p' t' H.
    apply eval_batch_Value in H
      as (demand & t_out & back & Hd & _ & _ & Ht & Hlife & Hb & Hnext).
    exists demand, t_out, back.
    split; [exact Hd|]. split; [exact Ht|]. split; [exact Hb|].
    split; [exact Hlife|].
    rewrite merge_timelines_max in Hnext by apply max_delay_nonneg.
    now injection Hnext as _ ->.
Qed.

(** C5 with a lifespan of [7]: the outbound time [5] is within it, the round
    trip [10] is not, and the batch is not rejected. *)
Lemma lifespan_on_outbound_witness :
  eval_batch plant_and_customer 20 7 1 None true 0 (0, 0)%R [1%Z] <> INF_RETURN.
Proof.
  destruct (lifespan_on_outbound plant_and_customer 20 7 1 None 0 [1%Z])
    as (_ & _ & _ & Hlife & _).
  intros H.
  apply (Hlife (0, 0)%R (0 + 10)%R (euclid 0 0 3 4 + 0)%R (euclid 3 4 0 0)) in H.
  - rewrite euclid_0_0_3_4 in H. unfold EPS_VALUE in H. lra.
  - exact plant_and_customer_demand.
  - unfold EPS_VALUE. lra.
  - lra.
  - exact (plant_and_customer_outbound None).
  - exact (plant_and_customer_return None).
Defined.

(** ** Travel times are not negative *)

Lemma euclid_nonneg xa ya xb yb : (0 <= euclid xa ya xb yb)%R.
Proof. apply sqrt_pos. Qed.

Lemma keeps_nonneg_None : keeps_nonneg None.
Proof. intros x Hx. exact Hx. Qed.

Lemma get_travel_time_nonneg locations a b rounding_func v :
  keeps_nonneg rounding_func ->
  get_travel_time locations a b rounding_func = Value v -> (0 <= v)%R.
Proof.
  intros Hr H.
  destruct (get_travel_time_cases locations a b rounding_func)
    as [E|(xa & ya & xb & yb & _ & _ & E)]; rewrite E in H; [discriminate|].
  injection H as <-. apply Hr, euclid_nonneg.
Qed.

Lemma sum_from_nonneg {A : Type} (f : A -> outcome R) (l : list A) (acc s : R) :
  (forall a v, f a = Value v -> (0 <= v)%R) ->
  sum_from f l acc = Value s -> (acc <= s)%R.
Proof.
  intros Hf. revert acc. induction l as [|a l IH]; intros acc H.
  - injection H as <-. lra.
  - cbn [sum_from] in H. apply bind_Value in H as (v & Hv & H).
    apply Hf in Hv. apply IH in H. lra.
Qed.

Lemma outbound_time_nonneg locations rounding_func plant batch t_out :
  keeps_nonneg rounding_func ->
  outbound_time locations rounding_func plant batch = Value t_out ->
  (0 <= t_out)%R.
Proof.
  intros Hr H. unfold outbound_time in H.
  apply bind_Value in H as (first & _ & H).
  apply bind_Value in H as (t0 & Ht0 & H).
  apply bind_Value in H as (legs & Hlegs & H). injection H as <-.
  apply (get_travel_time_nonneg _ _ _ _ _ Hr) in Ht0.
  apply sum_from_nonneg in Hlegs; [lra|].
  intros cust v Hv.
  apply bind_Value in Hv as (a & _ & Hv). apply bind_Value in Hv as (b & _ & Hv).
  exact (get_travel_time_nonneg _ _ _ _ _ Hr Hv).
Qed.

Lemma return_time_nonneg locations rounding_func plant batch back :
  keeps_nonneg rounding_func ->
  return_time locations rounding_func plant batch = Value back -> (0 <= back)%R.
Proof.
  intros Hr H. unfold return_time in H. apply bind_Value in H as (last & _ & H).
  exact (get_travel_time_nonneg _ _ _ _ _ Hr H).
Qed.

(** ** Doubling the rate *)

Ltac split_Rmax :=
  unfold Rmax in *;
  repeat match goal with
         | H : context [Rle_dec ?a ?b] |- _ => destruct (Rle_dec a b)
         | |- context [Rle_dec ?a ?b] => destruct (Rle_dec a b)
         end.

Lemma ahead_start : ahead 0 0 0 0.
Proof. split; [lra|]. intros s. split_Rmax; lra. Qed.

Lemma ahead_step p t p' t' d t_time max_delay :
  ahead p t p' t' -> (0 <= t_time)%R -> (0 <= max_delay)%R ->
  ahead (Rmax (p + d) (t - max_delay)) (Rmax (p + d) t + t_time)
        (Rmax (p' + d / 2) (t' - max_delay)) (Rmax (p' + d / 2) t' + t_time).
Proof.
  intros [Ht Hp] HT HD.
  pose proof (Hp d) as Hd. split.
  - split_Rmax; lra.
  - intros s. pose proof (Hp (d + s)%R) as Hds.
    split_Rmax; lra.
Qed.

Section DoubleRate.

Variable locations : list location.
Variables capacity lifespan rate : R.
Variable rounding_func : option (R -> R).
Variable check_feasibility : bool.
Hypothesis rounding_ok : keeps_nonneg rounding_func.

Lemma eval_batch_double plant p t p' t' batch p1 t1 :
  ahead p t p' t' ->
  eval_batch locations capacity lifespan rate rounding_func check_feasibility
    plant (p, t) batch = Value (p1, t1) ->
  exists p1' t1',
    eval_batch locations capacity lifespan (2 * rate) rounding_func
      check_feasibility plant (p', t') batch = Value (p1', t1') /\
    ahead p1 t1 p1' t1'.
Proof.
  intros Hahead H.
  apply eval_batch_Value in H
    as (demand & t_out & back & Hd & Hcap & Hrate & Ht & Hlife & Hb & Hnext).
  pose proof (outbound_time_nonneg _ _ _ _ _ rounding_ok Ht) as Hout.
  pose proof (return_time_nonneg _ _ _ _ _ rounding_ok Hb) as Hback.
  pose proof (max_delay_nonneg lifespan t_out) as Hdelay.
  rewrite merge_timelines_max in Hnext by exact Hdelay.
  injection Hnext as -> ->.
  exists (Rmax (p' + demand / rate / 2) (t' - Rmax 0 (lifespan - t_out))),
         (Rmax (p' + demand / rate / 2) t' + (t_out + back))%R.
  split.
  - apply eval_batch_Value. exists demand, t_out, back.
    split; [exact Hd|]. split; [exact Hcap|]. split; [lra|].
    split; [exact Ht|]. split; [exact Hlife|]. split; [exact Hb|].
    rewrite merge_timelines_max by exact Hdelay.
    replace (demand / (2 * rate))%R with (demand / rate / 2)%R
      by (field; exact Hrate).
    reflexivity.
  - apply ahead_step; [exact Hahead|lra|exact Hdelay].
Qed.

Lemma eval_batches_double plant p t p' t' route pf tf :
  ahead p t p' t' ->
  eval_batches locations capacity lifespan rate rounding_func check_feasibility
    plant (p, t) route = Value (pf, tf) ->
  exists pf' tf',
    eval_batches locations capacity lifespan (2 * rate) rounding_func
      check_feasibility plant (p', t') route = Value (pf', tf') /\
    ahead pf tf pf' tf'.
Proof.
  revert p t p' t'. induction route as [|batch route IH]; intros p t p' t' Ha H.
  - injection H as <- <-. exists p', t'. split; [reflexivity|exact Ha].
  - cbn [eval_batches] in H. apply bind_Value in H as ([p1 t1] & Hb & H).
    destruct (eval_batch_double _ _ _ _ _ _ _ _ Ha Hb) as (p1' & t1' & Hb' & Ha1).
    destruct (IH _ _ _ _ Ha1 H) as (pf' & tf' & H' & Haf).
    exists pf', tf'. split; [|exact Haf].
    cbn [eval_batches]. rewrite Hb'. exact H'.
Qed.

Lemma eval_route_double plant route finish :
  eval_route locations capacity lifespan rate rounding_func check_feasibility
    plant route = Value finish ->
  exists finish',
    eval_route locations capacity lifespan (2 * rate) rounding_func
      check_feasibility plant route = Value finish' /\
    (finish' <= finish)%R.
Proof.
  unfold eval_route. intros H.
  apply bind_Value in H as ([pf tf] & H & Hfin). injection Hfin as <-.
  destruct (eval_batches_double _ _ _ _ _ _ _ _ ahead_start H)
    as (pf' & tf' & H' & Ht & _).
  exists tf'. rewrite H'. split; [reflexivity|exact Ht].
Qed.

Lemma eval_routes_double plant routes makespan makespan' result :
  (makespan' <= makespan)%R ->
  eval_routes locations capacity lifespan rate rounding_func check_feasibility
    plant routes makespan = Value result ->
  exists result',
    eval_routes locations capacity lifespan (2 * rate) rounding_func
      check_feasibility plant routes makespan' = Value result' /\
    (result' <= result)%R.
Proof.
  revert plant makespan makespan'.
  induction routes as [|route routes IH]; intros plant m m' Hm H.
  - injection H as <-. exists m'. split; [reflexivity|exact Hm].
  - cbn [eval_routes] in H. apply bind_Value in H as (f & Hf & H).
    destruct (eval_route_double _ _ _ Hf) as (f' & Hf' & Hle).
    assert (Hmax : (Rmax m' f' <= Rmax m f)%R) by (split_Rmax; lra).
    destruct (IH _ _ _ Hmax H) as (result' & H' & Hres).
    exists result'. split; [|exact Hres].
    cbn [eval_routes]. rewrite Hf'. exact H'.
Qed.

End DoubleRate.

(** C6.  When [evaluate] returns a makespan at [rate], it returns one at
    [2 * rate] as well, all other arguments being the same, and that one is
    not larger.  Travel times are taken not to be negative, which they are
    without a rounding function and with [floor] or [round(x,2)]. *)
Theorem doubling_rate_monotone :
  forall locations capacity lifespan rate rounding_func check_feasibility
         (solution : list (list (list Z))) (makespan : R),
    keeps_nonneg rounding_func ->
    evaluate locations capacity lifespan rate rounding_func check_feasibility
      solution = Value makespan ->
    exists makespan',
      evaluate locations capacity lifespan (2 * rate) rounding_func
        check_feasibility solution = Value makespan' /\
      (makespan' <= makespan)%R.
Proof.
  intros locations capacity lifespan rate rounding_func check solution m Hr H.
  unfold evaluate in *. apply bind_Value in H as ([] & Hc & H).
  destruct (eval_routes_double _ _ _ _ _ _ Hr 0%Z solution 0%R 0%R m
              (Rle_refl 0) H) as (m' & H' & Hle).
  exists m'. rewrite Hc. split; [exact H'|exact Hle].
Qed.

Lemma doubling_rate_monotone_witness :
  exists makespan',
    evaluate plant_and_customer 20 100 (2 * 1) None true [[[1%Z]]]
    = Value makespan' /\ (makespan' <= 20)%R.
Proof.
  exact (doubling_rate_monotone plant_and_customer 20 100 1 None true [[[1%Z]]]
           20 keeps_nonneg_None
           (plant_and_customer_makespan 20 100 true
              (fun _ => ltac:(unfold EPS_VALUE; lra)))).
Defined.

(** ** The makespan of several plants *)

Section Makespan.

Variable locations : list location.
Variables capacity lifespan rate : R.
Variable rounding_func : option (R -> R).
Variable check_feasibility : bool.
Hypothesis rounding_ok : keeps_nonneg rounding_func.

(** The vehicle clock never runs backwards. *)
Lemma eval_batch_clock plant p t batch p1 t1 :
  eval_batch locations capacity lifespan rate rounding_func check_feasibility
    plant (p, t) batch = Value (p1, t1) ->
  (t <= t1)%R.
Proof.
  intros H.
  apply eval_batch_Value in H
    as (demand & t_out & back & _ & _ & _ & Ht & _ & Hb & Hnext).
  pose proof (outbound_time_nonneg _ _ _ _ _ rounding_ok Ht) as Hout.
  pose proof (return_time_nonneg _ _ _ _ _ rounding_ok Hb) as Hback.
  rewrite merge_timelines_max in Hnext by apply max_delay_nonneg.
  injection Hnext as _ ->.
  pose proof (Rmax_r (p + demand / rate) t). lra.
Qed.

Lemma eval_batches_clock plant curr route fin :
  eval_batches locations capacity lifespan rate rounding_func check_feasibility
    plant curr route = Value fin ->
  (snd curr <= snd fin)%R.
Proof.
  revert curr. induction route as [|batch route IH]; intros [p t] H.
  - injection H as <-. apply Rle_refl.
  - cbn [eval_batches] in H. apply bind_Value in H as ([p1 t1] & Hb & H).
    apply eval_batch_clock in Hb. apply IH in H. cbn [snd] in *. lra.
Qed.

Lemma eval_route_nonneg plant route finish :
  eval_route locations capacity lifespan rate rounding_func check_feasibility
    plant route = Value finish ->
  (0 <= finish)%R.
Proof.
  unfold eval_route. intros H. apply bind_Value in H as (fin & H & Hf).
  injection Hf as <-. exact (eval_batches_clock _ _ _ _ H).
Qed.

End Makespan.

(** The running maximum over the plants, from [makespan] on. *)
Lemma eval_routes_maximum locations capacity lifespan rate rounding_func check
    plant routes makespan result :
  eval_routes locations capacity lifespan rate rounding_func check plant routes
    makespan = Value result ->
  exists finishes : list R,
    Forall2 (fun pr finish =>
               eval_route locations capacity lifespan rate rounding_func check
                 (fst pr) (snd pr) = Value finish)
            (zip (seqZ plant (len routes)) routes) finishes /\
    (makespan <= result)%R /\
    Forall (fun finish => (finish <= result)%R) finishes /\
    (result = makespan \/ result ∈ finishes).
Proof.
  revert plant makespan.
  induction routes as [|route routes IH]; intros plant m H.
  - injection H as <-. exists []. split; [constructor|].
    split; [apply Rle_refl|]. split; [constructor|now left].
  - cbn [eval_routes] in H. apply bind_Value in H as (f & Hf & H).
    destruct (IH _ _ H) as (fs & Hall & Hacc & Hle & Hin).
    assert (Hlen : len (route :: routes) = Z.succ (len routes)).
    { unfold len. cbn [length]. lia. }
    exists (f :: fs). rewrite Hlen, seqZ_cons by (unfold len; lia).
    rewrite Z.pred_succ. cbn [zip_with].
    pose proof (Rmax_l m f) as Hm. pose proof (Rmax_r m f) as Hf'.
    split; [constructor; [exact Hf|]|].
    { now replace (Z.succ plant) with (plant + 1)%Z by lia. }
    split; [lra|]. split; [constructor; [lra|exact Hle]|].
    destruct Hin as [->|Hin]; [|right; now apply list_elem_of_further].
    unfold Rmax. destruct (Rle_dec m f); [right; apply list_elem_of_here|now left].
Qed.

(** C7.  The makespan of a solution with at least one plant is the largest
    of the finish times of its plants' routes: it is one of them, and none of
    them exceeds it.  Travel times are taken not to be negative. *)
Theorem makespan_is_maximum :
  forall locations capacity lifespan rate rounding_func check_feasibility
         (solution : list (list (list Z))) (makespan : R),
    solution <> [] ->
    keeps_nonneg rounding_func ->
    evaluate locations capacity lifespan rate rounding_func check_feasibility
      solution = Value makespan ->
    exists finishes : list R,
      length finishes = length solution /\
      Forall2 (fun pr finish =>
                 eval_route locations capacity lifespan rate rounding_func
                   check_feasibility (fst pr) (snd pr) = Value finish)
              (zip (seqZ 0 (len solution)) solution) finishes /\
      makespan ∈ finishes /\
      Forall (fun finish => (finish <= makespan)%R) finishes.
Proof.
  intros locations capacity lifespan rate rounding_func check solution m
         Hplants Hr H.
  unfold evaluate in H. apply bind_Value in H as (_ & _ & H).
  destruct (eval_routes_maximum _ _ _ _ _ _ _ _ _ _ H)
    as (fs & Hall & _ & Hle & Hin).
  exists fs.
  assert (Hlen : length fs = length solution).
  { apply Forall2_length in Hall. rewrite <- Hall, length_zip_with, length_seqZ.
    unfold len. lia. }
  split; [exact Hlen|]. split; [exact Hall|]. split; [|exact Hle].
  destruct Hin as [->|Hin]; [|exact Hin].
  destruct solution as [|route routes]; [contradiction|].
  destruct fs as [|f fs]; [discriminate Hlen|].
  assert (Hf : (0 <= f)%R).
  { assert (Hsucc : len (route :: routes) = Z.succ (len routes)).
    { unfold len. cbn [length]. lia. }
    rewrite Hsucc, seqZ_cons in Hall by (unfold len; lia).
    cbn [zip_with] in Hall. apply Forall2_cons_1 in Hall as [Hf _].
    exact (eval_route_nonneg _ _ _ _ _ _ Hr _ _ _ Hf). }
  apply Forall_cons_1 in Hle as [Hf0 _].
  replace 0%R with f by lra. apply list_elem_of_here.
Qed.

Lemma located_lookup locations i l x y :
  (0 <= i)%Z -> locations !! Z.to_nat i = Some l ->
  l !! "x"%string = Some x -> l !! "y"%string = Some y ->
  located locations i x y.
Proof. intros Hi Hl Hx Hy. split; [exact Hi|]. now exists l. Qed.

Lemma euclid_0_0_6_8 : euclid 0 0 6 8 = 10%R.
Proof.
  unfold euclid.
  replace ((0 - 6) ^ 2 + (0 - 8) ^ 2)%R with (10 * 10)%R by ring.
  apply sqrt_square. lra.
Qed.

Lemma euclid_6_8_0_0 : euclid 6 8 0 0 = 10%R.
Proof.
  unfold euclid.
  replace ((6 - 0) ^ 2 + (8 - 0) ^ 2)%R with (10 * 10)%R by ring.
  apply sqrt_square. lra.
Qed.

Lemma two_plants_0 : located two_plants 0 0 0.
Proof.
  apply (located_lookup _ 0 (mk_location 0 0 0));
    [lia|reflexivity|apply mk_location_x|apply mk_location_y].
Qed.

Lemma two_plants_1 : located two_plants 1 0 0.
Proof.
  apply (located_lookup _ 1 (mk_location 0 0 0));
    [lia|reflexivity|apply mk_location_x|apply mk_location_y].
Qed.

Lemma two_plants_2 : located two_plants 2 3 4.
Proof.
  apply (located_lookup _ 2 (mk_location 3 4 10));
    [lia|reflexivity|apply mk_location_x|apply mk_location_y].
Qed.

Lemma two_plants_3 : located two_plants 3 6 8.
Proof.
  apply (located_lookup _ 3 (mk_location 6 8 5));
    [lia|reflexivity|apply mk_location_x|apply mk_location_y].
Qed.

(** The first plant serves customer [2] and is back at [10 + 5 + 5]. *)
Lemma two_plants_first_route :
  eval_route two_plants 20 100 1 None true 0 [[2%Z]] = Value 20%R.
Proof.
  apply (eval_route_single _ _ _ _ _ _ _ _ (10, 20)%R).
  apply eval_batch_Value. exists (0 + 10)%R, (5 + 0)%R, 5%R.
  split.
  { apply (batch_demand_singleton _ 2 (mk_location 3 4 10));
      [lia|reflexivity|apply mk_location_demand]. }
  split; [intros _; unfold EPS_VALUE; lra|]. split; [lra|].
  split.
  { rewrite <- euclid_0_0_3_4 at 1.
    exact (outbound_time_singleton _ None 0 2 0 0 3 4 two_plants_0 two_plants_2). }
  split; [intros _; unfold EPS_VALUE; lra|].
  split.
  { rewrite <- euclid_3_4_0_0.
    exact (return_time_singleton _ None 0 2 0 0 3 4 two_plants_0 two_plants_2). }
  rewrite merge_timelines_free by lra. f_equal; lra.
Qed.

(** The second plant serves customer [3] and is back at [5 + 10 + 10]. *)
Lemma two_plants_second_route :
  eval_route two_plants 20 100 1 None true 1 [[3%Z]] = Value 25%R.
Proof.
  apply (eval_route_single _ _ _ _ _ _ _ _ (5, 25)%R).
  apply eval_batch_Value. exists (0 + 5)%R, (10 + 0)%R, 10%R.
  split.
  { apply (batch_demand_singleton _ 3 (mk_location 6 8 5));
      [lia|reflexivity|apply mk_location_demand]. }
  split; [intros _; unfold EPS_VALUE; lra|]. split; [lra|].
  split.
  { rewrite <- euclid_0_0_6_8 at 1.
    exact (outbound_time_singleton _ None 1 3 0 0 6 8 two_plants_1 two_plants_3). }
  split; [intros _; unfold EPS_VALUE; lra|].
  split.
  { rewrite <- euclid_6_8_0_0.
    exact (return_time_singleton _ None 1 3 0 0 6 8 two_plants_1 two_plants_3). }
  rewrite merge_timelines_free by lra. f_equal; lra.
Qed.

Lemma two_plants_makespan :
  evaluate two_plants 20 100 1 None true [[[2%Z]]; [[3%Z]]] = Value 25%R.
Proof.
  unfold evaluate.
  replace (check_customers two_plants [[[2%Z]]; [[3%Z]]]) with (Value tt)
    by reflexivity.
  cbn [bind eval_routes]. rewrite two_plants_first_route. cbn [bind].
  change (0 + 1)%Z with 1%Z. rewrite two_plants_second_route. cbn [bind].
  f_equal. unfold Rmax. repeat destruct (Rle_dec _ _); lra.
Qed.

(** C7 on two plants that finish at [20] and [25]: the makespan is [25]. *)
Lemma makespan_is_maximum_witness :
  exists finishes : list R,
    length finishes = 2%nat /\
    Forall2 (fun pr finish =>
               eval_route two_plants 20 100 1 None true (fst pr) (snd pr)
               = Value finish)
            (zip (seqZ 0 2) [[[2%Z]]; [[3%Z]]]) finishes /\
    25%R ∈ finishes /\
    Forall (fun finish => (finish <= 25)%R) finishes.
Proof.
  refine (makespan_is_maximum two_plants 20 100 1 None true [[[2%Z]]; [[3%Z]]]
            25 _ keeps_nonneg_None two_plants_makespan).
  discriminate.
Defined.

(** * Further properties of the evaluator *)

(** ** The travel metric *)

Lemma euclid_sym xa ya xb yb : euclid xa ya xb yb = euclid xb yb xa ya.
Proof. unfold euclid. f_equal. ring. Qed.

Lemma get_travel_time_Value locations a b rounding_func v :
  get_travel_time locations a b rounding_func = Value v ->
  exists xa ya xb yb,
    located locations a xa ya /\ located locations b xb yb /\
    v = rounded rounding_func (euclid xa ya xb yb).
Proof.
  intros H.
  destruct (get_travel_time_cases locations a b rounding_func)
    as [E|(xa & ya & xb & yb & Ha & Hb & E)]; rewrite E in H; [discriminate|].
  injection H as <-. now exists xa, ya, xb, yb.
Qed.

(** X1.  [get_travel_time] does not depend on the direction of travel: from
    [loc_a] to [loc_b] and from [loc_b] to [loc_a] it returns the same value,
    or raises the same exception. *)
Theorem get_travel_time_symmetric :
  forall (locations : list location) (loc_a loc_b : Z)
         (rounding_func : option (R -> R)),
    get_travel_time locations loc_a loc_b rounding_func
    = get_travel_time locations loc_b loc_a rounding_func.
Proof.
  intros locations a b r.
  destruct (classic (valid_location locations a)) as [(xa & ya & Ha)|Ha].
  - destruct (classic (valid_location locations b)) as [(xb & yb & Hb)|Hb].
    + rewrite (get_travel_time_located _ _ _ _ _ _ _ _ Ha Hb).
      rewrite (get_travel_time_located _ _ _ _ _ _ _ _ Hb Ha).
      now rewrite euclid_sym.
    + rewrite !get_travel_time_invalid; [reflexivity|now left|now right].
  - rewrite !get_travel_time_invalid; [reflexivity|now right|now left].
Qed.

(** ** The sign of the makespan *)

(** X3.  A makespan is never negative, whatever the rounding function
    returns: the running maximum starts from [0]. *)
Theorem makespan_nonneg :
  forall locations capacity lifespan rate rounding_func check_feasibility
         (solution : list (list (list Z))) (makespan : R),
    evaluate locations capacity lifespan rate rounding_func check_feasibility
      solution = Value makespan ->
    (0 <= makespan)%R.
Proof.
  intros locations capacity lifespan rate rounding_func check solution m H.
  unfold evaluate in H. apply bind_Value in H as (_ & _ & H).
  now destruct (eval_routes_maximum _ _ _ _ _ _ _ _ _ _ H) as (_ & _ & Hle & _).
Qed.

Lemma makespan_nonneg_witness : (0 <= 20)%R.
Proof.
  exact (makespan_nonneg plant_and_customer 20 100 1 None true [[[1%Z]]] 20
           (plant_and_customer_makespan 20 100 true
              (fun _ => ltac:(unfold EPS_VALUE; lra)))).
Defined.

(** ** What the feasibility check changes *)





(** ** Relaxing the limits and shortening the legs *)

Lemma sum_from_le {A : Type} (f g : A -> outcome R) (l : list A) (acc acc' s : R) :
  (forall a v, f a = Value v -> exists v', g a = Value v' /\ (v' <= v)%R) ->
  (acc' <= acc)%R ->
  sum_from f l acc = Value s ->
  exists s', sum_from g l acc' = Value s' /\ (s' <= s)%R.
Proof.
  intros Hfg. revert acc acc'. induction l as [|a l IH]; intros acc acc' Hacc H.
  - injection H as <-. now exists acc'.
  - cbn [sum_from] in *. apply bind_Value in H as (v & Hv & H).
    destruct (Hfg a v Hv) as (v' & Hv' & Hle). rewrite Hv'. cbn [bind].
    apply (IH (acc + v)%R); [lra|exact H].
Qed.

Section Relax.

Variable locations : list location.
Variables capacity capacity' lifespan lifespan' rate : R.
Variables rounding_func rounding_func' : option (R -> R).
Variable check_feasibility : bool.
Hypothesis capacity_le : (capacity <= capacity')%R.
Hypothesis lifespan_le : (lifespan <= lifespan')%R.
Hypothesis rounding_le :
  forall x : R, (0 <= x)%R -> (rounded rounding_func' x <= rounded rounding_func x)%R.

Lemma get_travel_time_le a b v :
  get_travel_time locations a b rounding_func = Value v ->
  exists v', get_travel_time locations a b rounding_func' = Value v' /\
             (v' <= v)%R.
Proof.
  intros H. apply get_travel_time_Value in H as (xa & ya & xb & yb & Ha & Hb & ->).
  exists (rounded rounding_func' (euclid xa ya xb yb)). split.
  - now apply get_travel_time_located.
  - apply rounding_le, euclid_nonneg.
Qed.

Lemma outbound_time_le plant batch t_out :
  outbound_time locations rounding_func plant batch = Value t_out ->
  exists t_out', outbound_time locations rounding_func' plant batch = Value t_out' /\
                 (t_out' <= t_out)%R.
Proof.
  unfold outbound_time. intros H.
  apply bind_Value in H as (first & Hfirst & H).
  apply bind_Value in H as (t0 & Ht0 & H).
  apply bind_Value in H as (legs & Hlegs & H). injection H as <-.
  rewrite Hfirst. cbn [bind].
  destruct (get_travel_time_le _ _ _ Ht0) as (t0' & -> & Hle0). cbn [bind].
  unfold py_sum in *.
  assert (Hfg : forall cust v,
             (let* a := getitem batch (cust - 1) in
              let* b := getitem batch cust in
              get_travel_time locations a b rounding_func) = Value v ->
             exists v',
               (let* a := getitem batch (cust - 1) in
                let* b := getitem batch cust in
                get_travel_time locations a b rounding_func') = Value v' /\
               (v' <= v)%R).
  { intros cust v Hv.
    apply bind_Value in Hv as (a & Ha & Hv). apply bind_Value in Hv as (b & Hb & Hv).
    rewrite Ha, Hb. cbn [bind]. exact (get_travel_time_le _ _ _ Hv). }
  destruct (sum_from_le _ _ _ _ _ _ Hfg (Rle_refl 0) Hlegs) as (legs' & -> & Hle).
  cbn [bind]. eexists. split; [reflexivity|lra].
Qed.

Lemma return_time_le plant batch back :
  return_time locations rounding_func plant batch = Value back ->
  exists back', return_time locations rounding_func' plant batch = Value back' /\
                (back' <= back)%R.
Proof.
  unfold return_time. intros H. apply bind_Value in H as (last & -> & H).
  cbn [bind]. exact (get_travel_time_le _ _ _ H).
Qed.

Lemma eval_batch_relax plant p t p' t' batch p1 t1 :
  (p' <= p)%R -> (t' <= t)%R ->
  eval_batch locations capacity lifespan rate rounding_func check_feasibility
    plant (p, t) batch = Value (p1, t1) ->
  exists p1' t1',
    eval_batch locations capacity' lifespan' rate rounding_func' check_feasibility
      plant (p', t') batch = Value (p1', t1') /\
    (p1' <= p1)%R /\ (t1' <= t1)%R.
Proof.
  intros Hp Htt H.
  apply eval_batch_Value in H
    as (demand & t_out & back & Hd & Hcap & Hrate & Ht & Hlife & Hb & Hnext).
  destruct (outbound_time_le _ _ _ Ht) as (t_out' & Ht' & Hout).
  destruct (return_time_le _ _ _ Hb) as (back' & Hb' & Hback).
  rewrite merge_timelines_max in Hnext by apply max_delay_nonneg.
  injection Hnext as -> ->.
  exists (Rmax (p' + demand / rate) (t' - Rmax 0 (lifespan' - t_out'))),
         (Rmax (p' + demand / rate) t' + (t_out' + back'))%R.
  split.
  - apply eval_batch_Value. exists demand, t_out', back'.
    split; [exact Hd|]. split; [intros Hc; specialize (Hcap Hc); lra|].
    split; [exact Hrate|]. split; [exact Ht'|].
    split; [intros Hc; specialize (Hlife Hc); lra|]. split; [exact Hb'|].
    now rewrite merge_timelines_max by apply max_delay_nonneg.
  - split; split_Rmax; lra.
Qed.

Lemma eval_batches_relax plant p t p' t' route pf tf :
  (p' <= p)%R -> (t' <= t)%R ->
  eval_batches locations capacity lifespan rate rounding_func check_feasibility
    plant (p, t) route = Value (pf, tf) ->
  exists pf' tf',
    eval_batches locations capacity' lifespan' rate rounding_func'
      check_feasibility plant (p', t') route = Value (pf', tf') /\
    (pf' <= pf)%R /\ (tf' <= tf)%R.
Proof.
  revert p t p' t'. induction route as [|batch route IH]; intros p t p' t' Hp Ht H.
  - injection H as <- <-. now exists p', t'.
  - cbn [eval_batches] in *. apply bind_Value in H as ([p1 t1] & Hb & H).
    destruct (eval_batch_relax _ _ _ _ _ _ _ _ Hp Ht Hb)
      as (p1' & t1' & -> & Hp1 & Ht1).
    cbn [bind]. exact (IH _ _ _ _ Hp1 Ht1 H).
Qed.

Lemma eval_routes_relax plant routes makespan makespan' result :
  (makespan' <= makespan)%R ->
  eval_routes locations capacity lifespan rate rounding_func check_feasibility
    plant routes makespan = Value result ->
  exists result',
    eval_routes locations capacity' lifespan' rate rounding_func'
      check_feasibility plant routes makespan' = Value result' /\
    (result' <= result)%R.
Proof.
  revert plant makespan makespan'.
  induction routes as [|route routes IH]; intros plant m m' Hm H.
  - injection H as <-. now exists m'.
  - cbn [eval_routes] in *. unfold eval_route in *.
    apply bind_Value in H as (f & Hf & H).
    apply bind_Value in Hf as ([pf tf] & Hfin & Hf). injection Hf as <-.
    destruct (eval_batches_relax _ _ _ _ _ _ _ _ (Rle_refl 0) (Rle_refl 0) Hfin)
      as (pf' & tf' & -> & _ & Htf).
    cbn [bind snd] in *.
    apply (IH _ (Rmax m tf)); [split_Rmax; lra|exact H].
Qed.

Lemma evaluate_relax solution makespan :
  evaluate locations capacity lifespan rate rounding_func check_feasibility
    solution = Value makespan ->
  exists makespan',
    evaluate locations capacity' lifespan' rate rounding_func' check_feasibility
      solution = Value makespan' /\
    (makespan' <= makespan)%R.
Proof.
  unfold evaluate. intros H. apply bind_Value in H as ([] & -> & H).
  cbn [bind]. exact (eval_routes_relax _ _ _ _ _ (Rle_refl 0) H).
Qed.

End Relax.



Lemma py_floor_le x : (py_floor x <= x)%R.
Proof. unfold py_floor. apply Zfloor_bound. Qed.

(** ** Lower bounds on the makespan *)

Lemma eval_routes_bound locations capacity lifespan rate rounding_func check
    plant routes makespan result (i : nat) route :
  eval_routes locations capacity lifespan rate rounding_func check plant routes
    makespan = Value result ->
  routes !! i = Some route ->
  exists finish,
    eval_route locations capacity lifespan rate rounding_func check
      (plant + Z.of_nat i) route = Value finish /\
    (finish <= result)%R.
Proof.
  revert plant makespan i.
  induction routes as [|r routes IH]; intros plant m i H Hi; [discriminate Hi|].
  cbn [eval_routes] in H. apply bind_Value in H as (f & Hf & H).
  destruct i as [|i].
  - injection Hi as <-. exists f. rewrite Z.add_0_r. split; [exact Hf|].
    destruct (eval_routes_maximum _ _ _ _ _ _ _ _ _ _ H) as (_ & _ & Hle & _).
    pose proof (Rmax_r m f). lra.
  - destruct (IH _ _ _ H Hi) as (finish & Hfin & Hle).
    exists finish. split; [|exact Hle].
    now replace (plant + Z.of_nat (S i))%Z with (plant + 1 + Z.of_nat i)%Z by lia.
Qed.

Lemma evaluate_route_bound locations capacity lifespan rate rounding_func check
    solution makespan (plant : nat) route :
  evaluate locations capacity lifespan rate rounding_func check solution
  = Value makespan ->
  solution !! plant = Some route ->
  exists finish,
    eval_route locations capacity lifespan rate rounding_func check
      (Z.of_nat plant) route = Value finish /\
    (finish <= makespan)%R.
Proof.
  unfold evaluate. intros H Hroute. apply bind_Value in H as (_ & _ & H).
  exact (eval_routes_bound _ _ _ _ _ _ _ _ _ _ _ _ H Hroute).
Qed.

Section Bounds.

Variable locations : list location.
Variables capacity lifespan rate : R.
Variable rounding_func : option (R -> R).
Variable check_feasibility : bool.

Lemma eval_batch_times plant p t batch p1 t1 :
  eval_batch locations capacity lifespan rate rounding_func check_feasibility
    plant (p, t) batch = Value (p1, t1) ->
  exists p_time t_time,
    production_time locations rate batch = Value p_time /\
    round_trip locations rounding_func plant batch = Value t_time /\
    (p + p_time <= p1)%R /\
    t1 = (Rmax (p + p_time) t + t_time)%R.
Proof.
  intros H.
  apply eval_batch_Value in H
    as (demand & t_out & back & Hd & _ & Hrate & Ht & _ & Hb & Hnext).
  exists (demand / rate)%R, (t_out + back)%R.
  split.
  { unfold production_time. rewrite Hd. cbn [bind]. unfold divide.
    destruct (decide (rate = 0)%R); [contradiction|reflexivity]. }
  split; [unfold round_trip; now rewrite Ht, Hb|].
  rewrite merge_timelines_max in Hnext by apply max_delay_nonneg.
  injection Hnext as -> ->. split; [apply Rmax_l|reflexivity].
Qed.

Lemma eval_batches_travel plant p t route pf tf acc :
  eval_batches locations capacity lifespan rate rounding_func check_feasibility
    plant (p, t) route = Value (pf, tf) ->
  exists total,
    sum_from (round_trip locations rounding_func plant) route acc = Value total /\
    (total - acc <= tf - t)%R.
Proof.
  revert p t acc. induction route as [|batch route IH]; intros p t acc H.
  - injection H as <- <-. exists acc. split; [reflexivity|lra].
  - cbn [eval_batches sum_from] in *.
    apply bind_Value in H as ([p1 t1] & Hb & H).
    destruct (eval_batch_times _ _ _ _ _ _ Hb) as (d & T & _ & -> & _ & ->).
    cbn [bind].
    destruct (IH _ _ (acc + T)%R H) as (total & -> & Hle).
    exists total. split; [reflexivity|].
    pose proof (Rmax_r (p + d) t). lra.
Qed.

Lemma eval_batches_production plant p t route pf tf acc :
  eval_batches locations capacity lifespan rate rounding_func check_feasibility
    plant (p, t) route = Value (pf, tf) ->
  exists total,
    sum_from (production_time locations rate) route acc = Value total /\
    (p + (total - acc) <= pf)%R.
Proof.
  revert p t acc. induction route as [|batch route IH]; intros p t acc H.
  - injection H as <- <-. exists acc. split; [reflexivity|lra].
  - cbn [eval_batches sum_from] in *.
    apply bind_Value in H as ([p1 t1] & Hb & H).
    destruct (eval_batch_times _ _ _ _ _ _ Hb) as (d & T & -> & _ & Hp1 & _).
    cbn [bind].
    destruct (IH _ _ (acc + d)%R H) as (total & -> & Hle).
    exists total. split; [reflexivity|lra].
Qed.

End Bounds.

(** X8.  The makespan is at least the total time any one vehicle is on the
    road: the sum, over the batches of a route, of outbound time and return
    leg. *)
Theorem travel_lower_bound :
  forall locations capacity lifespan rate rounding_func check_feasibility
         (solution : list (list (list Z))) (makespan : R)
         (plant : nat) (route : list (list Z)),
    evaluate locations capacity lifespan rate rounding_func check_feasibility
      solution = Value makespan ->
    solution !! plant = Some route ->
    exists total,
      py_sum (round_trip locations rounding_func (Z.of_nat plant)) route
      = Value total /\
      (total <= makespan)%R.
Proof.
  intros locations capacity lifespan rate rounding_func check solution m plant
         route H Hroute.
  destruct (evaluate_route_bound _ _ _ _ _ _ _ _ _ _ H Hroute) as (f & Hf & Hle).
  unfold eval_route in Hf. apply bind_Value in Hf as ([pf tf] & Hfin & Hf).
  injection Hf as <-.
  destruct (eval_batches_travel _ _ _ _ _ _ _ _ _ _ _ _ 0%R Hfin)
    as (total & Htotal & Hbound).
  exists total. split; [exact Htotal|]. cbn [snd] in Hle. lra.
Qed.

Lemma plant_and_customer_solution :
  [[[1%Z]]] !! 0%nat = Some [[1%Z]].
Proof. reflexivity. Qed.

Lemma travel_lower_bound_witness :
  exists total,
    py_sum (round_trip plant_and_customer None (Z.of_nat 0)) [[1%Z]] = Value total /\
    (total <= 20)%R.
Proof.
  exact (travel_lower_bound plant_and_customer 20 100 1 None true [[[1%Z]]] 20
           0%nat [[1%Z]]
           (plant_and_customer_makespan 20 100 true
              (fun _ => ltac:(unfold EPS_VALUE; lra)))
           plant_and_customer_solution).
Defined.

(** X9.  The makespan is at least the time it takes to produce all batches
    of a route one after the other and then to deliver the last one and come
    back. *)
Theorem production_lower_bound :
  forall locations capacity lifespan rate rounding_func check_feasibility
         (solution : list (list (list Z))) (makespan : R)
         (plant : nat) (pre : list (list Z)) (last : list Z),
    evaluate locations capacity lifespan rate rounding_func check_feasibility
      solution = Value makespan ->
    solution !! plant = Some (pre ++ [last]) ->
    exists production trip,
      py_sum (production_time locations rate) (pre ++ [last]) = Value production /\
      round_trip locations rounding_func (Z.of_nat plant) last = Value trip /\
      (production + trip <= makespan)%R.
Proof.
  intros locations capacity lifespan rate rounding_func check solution m plant
         pre last H Hroute.
  destruct (evaluate_route_bound _ _ _ _ _ _ _ _ _ _ H Hroute) as (f & Hf & Hle).
  unfold eval_route in Hf. apply bind_Value in Hf as ([pf tf] & Hfin & Hf).
  injection Hf as <-. cbn [snd] in Hle.
  rewrite eval_batches_app in Hfin. apply bind_Value in Hfin as ([pm tm] & Hpre & Hlast).
  cbn [eval_batches] in Hlast. apply bind_Value in Hlast as ([p1 t1] & Hb & Hlast).
  injection Hlast as -> ->.
  destruct (eval_batches_production _ _ _ _ _ _ _ _ _ _ _ _ 0%R Hpre)
    as (before & Hbefore & Hpm).
  destruct (eval_batch_times _ _ _ _ _ _ _ _ _ _ _ _ Hb)
    as (d & T & Hd & HT & _ & ->).
  exists (before + d)%R, T. split; [|split; [exact HT|]].
  - unfold py_sum. rewrite sum_from_app, Hbefore. cbn [bind sum_from].
    now rewrite Hd.
  - pose proof (Rmax_l (pm + d) tm). lra.
Qed.

Lemma production_lower_bound_witness :
  exists production trip,
    py_sum (production_time plant_and_customer 1) ([] ++ [[1%Z]])
    = Value production /\
    round_trip plant_and_customer None (Z.of_nat 0) [1%Z] = Value trip /\
    (production + trip <= 20)%R.
Proof.
  exact (production_lower_bound plant_and_customer 20 100 1 None true [[[1%Z]]]
           20 0%nat [] [1%Z]
           (plant_and_customer_makespan 20 100 true
              (fun _ => ltac:(unfold EPS_VALUE; lra)))
           plant_and_customer_solution).
Defined.

(** ** Edge cases *)

(** X10.  With a rate of [0] no solution that holds a batch gets a makespan:
    the division by the rate raises [ZeroDivisionError] unless the batch is
    rejected or raises before.  Without the feasibility check the outcome is
    an exception. *)
Theorem zero_rate_no_makespan :
  forall locations capacity lifespan rounding_func check_feasibility
         (solution : list (list (list Z))) (route : list (list Z))
         (batch : list Z),
    route ∈ solution -> batch ∈ route ->
    (forall makespan,
        evaluate locations capacity lifespan 0 rounding_func check_feasibility
          solution <> Value makespan) /\
    (check_feasibility = false ->
     is_fault (evaluate locations capacity lifespan 0 rounding_func
                 check_feasibility solution)) /\
    (forall plant curr demand,
        batch_demand locations batch = Value demand ->
        (check_feasibility = true -> demand < capacity + EPS_VALUE)%R ->
        eval_batch locations capacity lifespan 0 rounding_func check_feasibility
          plant curr batch = Raise ZeroDivisionError).
Proof.
  intros locations capacity lifespan rounding_func check solution route batch
         Hroute Hbatch.
  assert (Hno : forall m, evaluate locations capacity lifespan 0 rounding_func
                            check solution <> Value m).
  { intros m H. apply list_elem_of_lookup in Hroute as [plant Hplant].
    destruct (evaluate_Value_batches _ _ _ _ _ _ _ _ H plant route batch
                Hplant Hbatch) as ([p t] & after & Hb).
    apply eval_batch_Value in Hb as (_ & _ & _ & _ & _ & Hrate & _).
    now apply Hrate. }
  split; [exact Hno|]. split.
  - intros ->.
    pose proof (evaluate_unchecked_not_INF locations capacity lifespan 0
                  rounding_func solution) as Hinf.
    destruct (evaluate locations capacity lifespan 0 rounding_func false solution)
      as [m| |e].
    + now destruct (Hno m).
    + now destruct Hinf.
    + now exists e.
  - intros plant [p t] demand Hd Hcap. unfold eval_batch. rewrite Hd. cbn [bind].
    assert (Hgo : check && bool_decide (capacity + EPS_VALUE <= demand)%R = false).
    { destruct check; [|reflexivity]. cbn [andb].
      apply bool_decide_eq_false. specialize (Hcap eq_refl). lra. }
    rewrite Hgo. unfold divide.
    destruct (decide (0 = 0)%R) as [_|Hne]; [reflexivity|now destruct Hne].
Qed.

Lemma zero_rate_no_makespan_witness :
  eval_batch plant_and_customer 20 100 0 None true 0 (0, 0)%R [1%Z]
  = Raise ZeroDivisionError.
Proof.
  refine (proj2 (proj2 (zero_rate_no_makespan plant_and_customer 20 100 None true
                          [[[1%Z]]] [[1%Z]] [1%Z] _ _))
            0%Z (0, 0)%R (0 + 10)%R plant_and_customer_demand _).
  - apply list_elem_of_here.
  - apply list_elem_of_here.
  - intros _. unfold EPS_VALUE. lra.
Defined.

Lemma concat_all_nil {A : Type} (l : list (list A)) :
  Forall (fun x : list A => x = []) l -> concat l = [].
Proof.
  induction 1 as [|x l -> _ IH]; [reflexivity|]. cbn [concat]. exact IH.
Qed.

Lemma eval_routes_all_nil locations capacity lifespan rate rounding_func check
    plant routes :
  Forall (fun route : list (list Z) => route = []) routes ->
  eval_routes locations capacity lifespan rate rounding_func check plant routes 0
  = Value 0%R.
Proof.
  intros H. revert plant. induction H as [|route routes -> _ IH]; intros plant.
  - reflexivity.
  - cbn [eval_routes]. unfold eval_route. cbn [eval_batches bind snd].
    replace (Rmax 0 0) with 0%R by (symmetry; apply Rmax_left, Rle_refl).
    apply IH.
Qed.

(** X11.  A solution without any batch has the makespan [0] when the
    feasibility check is off; with the check it has the makespan [0] when
    the instance holds nothing but the plants of the solution, and is
    rejected otherwise. *)
Theorem no_batches :
  forall locations capacity lifespan rate rounding_func
         (solution : list (list (list Z))),
    Forall (fun route : list (list Z) => route = []) solution ->
    evaluate locations capacity lifespan rate rounding_func false solution
    = Value 0%R /\
    evaluate locations capacity lifespan rate rounding_func true solution
    = if bool_decide (len locations = len solution) then Value 0%R
      else INF_RETURN.
Proof.
  intros locations capacity lifespan rate rounding_func solution Hall.
  split; [rewrite evaluate_unchecked; now apply eval_routes_all_nil|].
  unfold evaluate, check_customers, visited_customers.
  rewrite (concat_all_nil solution Hall). cbn [concat].
  change (merge_sort Z.le []) with (@nil Z). change (len (@nil Z)) with 0%Z.
  case_bool_decide as Hlen; case_bool_decide as Hlen'; try lia.
  - reflexivity.
  - cbn [check_visited bind]. now apply eval_routes_all_nil.
Qed.

Lemma no_batches_witness :
  evaluate two_plants 20 100 1 None false [[]; []] = Value 0%R /\
  evaluate two_plants 20 100 1 None true [[]; []]
  = if bool_decide (len two_plants = len ([[]; []] : list (list (list Z))))
    then Value 0%R else INF_RETURN.
Proof.
  refine (no_batches two_plants 20 100 1 None [[]; []] _).
  repeat constructor.
Defined.

(** ** Longer routes *)

(** X12.  While travel times are not negative, a route finishes no earlier
    than any of its beginnings: batches added at the end of a route never
    bring its finish time forward. *)
Theorem route_finish_grows :
  forall locations capacity lifespan rate rounding_func check_feasibility
         (plant : Z) (pre post : list (list Z)) (finish' : R),
    keeps_nonneg rounding_func ->
    eval_route locations capacity lifespan rate rounding_func check_feasibility
      plant (pre ++ post) = Value finish' ->
    exists finish,
      eval_route locations capacity lifespan rate rounding_func check_feasibility
        plant pre = Value finish /\
      (0 <= finish <= finish')%R.
Proof.
  intros locations capacity lifespan rate rounding_func check plant pre post f'
         Hr H.
  unfold eval_route in *. apply bind_Value in H as (fin' & H & Hf').
  injection Hf' as <-. rewrite eval_batches_app in H.
  apply bind_Value in H as (fin & Hpre & Hpost). rewrite Hpre. cbn [bind].
  exists (snd fin). split; [reflexivity|].
  pose proof (eval_batches_clock _ _ _ _ _ _ Hr _ _ _ _ Hpre) as H0.
  pose proof (eval_batches_clock _ _ _ _ _ _ Hr _ _ _ _ Hpost) as H1.
  cbn [snd] in H0. split; [exact H0|exact H1].
Qed.

Lemma route_finish_grows_witness :
  exists finish,
    eval_route two_plants 20 100 1 None true 0 [] = Value finish /\
    (0 <= finish <= 20)%R.
Proof.
  exact (route_finish_grows two_plants 20 100 1 None true 0 [] [[2%Z]] 20
           keeps_nonneg_None two_plants_first_route).
Defined.

(** * The sweep over the solutions of Lacomme et al. *)

Lemma returned_Value (o : outcome R) (v : value) :
  returned o = Value v ->
  (exists m, o = Value m /\ v = Number m) \/ (o = INF_RETURN /\ v = Inf).
Proof.
  destruct o as [m| |e]; cbn [returned]; intros H; [left|right|discriminate].
  - injection H as <-. now exists m.
  - now injection H as <-.
Qed.

Section LacommeFacts.

Variable read_geismar_instance : Z -> list location.
Variable load_solution : Z -> Z -> Z -> Z -> Z -> list (list Z).
Variable round2 : R -> R.
Variable check_feasibility : bool.

Abbreviation evaluate_case_ :=
  (evaluate_case read_geismar_instance load_solution check_feasibility).
Abbreviation floor_infeasible_ :=
  (floor_infeasible read_geismar_instance load_solution check_feasibility).
Abbreviation round_infeasible_ :=
  (round_infeasible read_geismar_instance load_solution round2 check_feasibility).

Abbreviation completes_ :=
  (completes read_geismar_instance load_solution round2 check_feasibility).

Lemma rep_body_Value i Q B r rep values fc rc st' :
  rep_body read_geismar_instance load_solution round2 check_feasibility
    i Q B r rep (values, fc, rc) = Value st' ->
  exists v1 v2 v3,
    st' = (values ++ [v1; v2; v3],
           fc ++ List.filter floor_infeasible_ [(i, Q, B, r, rep)],
           rc ++ List.filter round_infeasible_ [(i, Q, B, r, rep)]) /\
    completes_ (i, Q, B, r, rep).
Proof.
  unfold rep_body, completes, round_infeasible, floor_infeasible.
  cbn [List.filter].
  destruct (evaluate_case_ None (i, Q, B, r, rep)) as [m1| |e1];
    cbn [returned bind]; [| |discriminate];
    (destruct (evaluate_case_ (Some round2) (i, Q, B, r, rep)) as [m2| |e2];
     cbn [returned bind]; [| |discriminate]);
    (destruct (evaluate_case_ (Some py_floor) (i, Q, B, r, rep)) as [m3| |e3];
     cbn [returned bind is_Inf negb andb]; [| |discriminate]);
    intros [= <-]; rewrite ?app_nil_r;
    (eexists _, _, _; split; [reflexivity|]);
    (repeat split; discriminate).
Qed.

Lemma rep_loop reps i Q B r values fc rc values' fc' rc' :
  for_each (rep_body read_geismar_instance load_solution round2 check_feasibility
              i Q B r) reps (values, fc, rc) = Value (values', fc', rc') ->
  length values' = (length values + 3 * length reps)%nat /\
  fc' = fc ++ List.filter floor_infeasible_
                (map (fun rep => (i, Q, B, r, rep)) reps) /\
  rc' = rc ++ List.filter round_infeasible_
                (map (fun rep => (i, Q, B, r, rep)) reps) /\
  Forall completes_ (map (fun rep => (i, Q, B, r, rep)) reps).
Proof.
  revert values fc rc. induction reps as [|rep reps IH]; intros values fc rc H.
  - injection H as <- <- <-. cbn [map List.filter length].
    rewrite !app_nil_r. split; [lia|]. split; [reflexivity|].
    split; [reflexivity|constructor].
  - cbn [for_each] in H. apply bind_Value in H as (st & Hst & H).
    apply rep_body_Value in Hst as (v1 & v2 & v3 & -> & Hc).
    apply IH in H as (Hlen & -> & -> & Hall).
    rewrite length_app in Hlen. cbn [length map] in *.
    change ((i, Q, B, r, rep) :: map (fun rep0 => (i, Q, B, r, rep0)) reps)
      with ([(i, Q, B, r, rep)] ++ map (fun rep0 => (i, Q, B, r, rep0)) reps).
    rewrite !List.filter_app, <- !app_assoc.
    split; [lia|]. split; [reflexivity|]. split; [reflexivity|].
    now constructor.
Qed.

Lemma combination_loop combos i rows fc rc rows' fc' rc' :
  for_each (combination_body read_geismar_instance load_solution round2
              check_feasibility i) combos (rows, fc, rc)
  = Value (rows', fc', rc') ->
  exists new,
    rows' = rows ++ new /\ length new = length combos /\
    Forall (fun row => length (snd row) = 15%nat) new /\
    fc' = fc ++ List.filter floor_infeasible_
                  (flat_map (fun '(Q, B, r) =>
                               map (fun rep => (i, Q, B, r, rep))
                                   [1; 2; 3; 4; 5]%Z) combos) /\
    rc' = rc ++ List.filter round_infeasible_
                  (flat_map (fun '(Q, B, r) =>
                               map (fun rep => (i, Q, B, r, rep))
                                   [1; 2; 3; 4; 5]%Z) combos) /\
    Forall completes_
      (flat_map (fun '(Q, B, r) =>
                   map (fun rep => (i, Q, B, r, rep)) [1; 2; 3; 4; 5]%Z) combos).
Proof.
  revert rows fc rc. induction combos as [|[[Q B] r] combos IH]; intros rows fc rc H.
  - injection H as <- <- <-. exists []. cbn [flat_map List.filter].
    rewrite !app_nil_r. repeat split; constructor.
  - cbn [for_each] in H. apply bind_Value in H as (st & Hst & H).
    unfold combination_body in Hst.
    apply bind_Value in Hst as ([[values fc1] rc1] & Hreps & Hst).
    injection Hst as <-.
    apply rep_loop in Hreps as (Hlen & -> & -> & Hall1).
    apply IH in H as (new & -> & Hnew & Hrows & -> & -> & Hall).
    exists ((i, Q, B, r, values) :: new). cbn [flat_map].
    rewrite !List.filter_app, <- !app_assoc. cbn [app length].
    split; [reflexivity|]. split; [lia|].
    split; [constructor; [exact Hlen|exact Hrows]|].
    split; [reflexivity|]. split; [reflexivity|].
    apply Forall_app. now split.
Qed.

Lemma instance_loop instances capacities lifespans rates rows fc rc rows' fc' rc' :
  for_each (fun i => for_each (combination_body read_geismar_instance
                                 load_solution round2 check_feasibility i)
                              (product capacities lifespans rates))
           instances (rows, fc, rc) = Value (rows', fc', rc') ->
  exists new,
    rows' = rows ++ new /\
    length new
    = (length instances * length (product capacities lifespans rates))%nat /\
    Forall (fun row => length (snd row) = 15%nat) new /\
    fc' = fc ++ List.filter floor_infeasible_
                  (cases_of instances capacities lifespans rates) /\
    rc' = rc ++ List.filter round_infeasible_
                  (cases_of instances capacities lifespans rates) /\
    Forall completes_ (cases_of instances capacities lifespans rates).
Proof.
  revert rows fc rc. induction instances as [|i instances IH]; intros rows fc rc H.
  - injection H as <- <- <-. exists []. cbn [cases_of flat_map List.filter].
    rewrite !app_nil_r. repeat split; constructor.
  - cbn [for_each] in H. apply bind_Value in H as ([[rows1 fc1] rc1] & Hi & H).
    apply combination_loop in Hi as (new1 & -> & Hlen1 & Hrows1 & -> & -> & Hall1).
    apply IH in H as (new & -> & Hlen & Hrows & -> & -> & Hall).
    exists (new1 ++ new). unfold cases_of in *. cbn [flat_map].
    rewrite !List.filter_app, <- !app_assoc, length_app. cbn [length].
    split; [reflexivity|]. split; [lia|].
    split; [apply Forall_app; now split|].
    split; [reflexivity|]. split; [reflexivity|].
    apply Forall_app. now split.
Qed.

End LacommeFacts.

Lemma length_product capacities lifespans rates :
  length (product capacities lifespans rates)
  = (length capacities * length lifespans * length rates)%nat.
Proof.
  unfold product. induction capacities as [|Q capacities IH]; [reflexivity|].
  cbn [flat_map length]. rewrite length_app, IH.
  assert (Hin : length (flat_map (fun B => map (fun r => (Q, B, r)) rates) lifespans)
                = (length lifespans * length rates)%nat).
  { clear. induction lifespans as [|B lifespans IH]; [reflexivity|].
    cbn [flat_map length]. rewrite length_app, length_map, IH. lia. }
  rewrite Hin. lia.
Qed.

Lemma filter_none {A : Type} (f : A -> bool) (l : list A) :
  (forall a, f a = false) -> List.filter f l = [].
Proof.
  intros Hf. induction l as [|a l IH]; [reflexivity|].
  cbn [List.filter]. now rewrite Hf.
Qed.

(** X13.  When the sweep runs to its end, it has written one row of fifteen
    values for every instance and every combination of capacity, lifespan
    and rate; the floor-infeasible cases are the cases of the sweep, in their
    order, whose evaluation with [floor] returns ['inf'], and the
    round-infeasible cases those of the others whose evaluation with
    [round(x,2)] returns ['inf']. *)
Theorem sweep_cases :
  forall read_geismar_instance load_solution round2 check_feasibility
         (instances capacities lifespans rates : list Z) rows
         floor_infeasible_cases round_infeasible_cases,
    sweep read_geismar_instance load_solution round2 check_feasibility
      instances capacities lifespans rates
    = Value (rows, floor_infeasible_cases, round_infeasible_cases) ->
    length rows
    = (length instances * (length capacities * length lifespans * length rates))%nat
    /\
    Forall (fun row => length (snd row) = 15%nat) rows /\
    floor_infeasible_cases
    = List.filter
        (floor_infeasible read_geismar_instance load_solution check_feasibility)
        (cases_of instances capacities lifespans rates) /\
    round_infeasible_cases
    = List.filter
        (round_infeasible read_geismar_instance load_solution round2
           check_feasibility)
        (cases_of instances capacities lifespans rates).
Proof.
  intros read load round2 check instances capacities lifespans rates rows fc rc H.
  unfold sweep in H.
  apply instance_loop in H as (new & -> & Hlen & Hrows & -> & -> & _).
  cbn [app]. rewrite length_product in Hlen. auto.
Qed.

(** X14.  In a sweep that runs to its end, nothing is recorded when the
    feasibility check is off; a floor-infeasible case is infeasible without
    rounding as well; a round-infeasible case is feasible with [floor]; and
    no case is in both lists. *)
Theorem sweep_infeasible_cases :
  forall read_geismar_instance load_solution round2 check_feasibility
         (instances capacities lifespans rates : list Z) rows
         floor_infeasible_cases round_infeasible_cases,
    sweep read_geismar_instance load_solution round2 check_feasibility
      instances capacities lifespans rates
    = Value (rows, floor_infeasible_cases, round_infeasible_cases) ->
    (check_feasibility = false ->
     floor_infeasible_cases = [] /\ round_infeasible_cases = []) /\
    (forall c, In c floor_infeasible_cases ->
       evaluate_case read_geismar_instance load_solution check_feasibility
         (Some py_floor) c = INF_RETURN /\
       evaluate_case read_geismar_instance load_solution check_feasibility
         None c = INF_RETURN) /\
    (forall c, In c round_infeasible_cases ->
       evaluate_case read_geismar_instance load_solution check_feasibility
         (Some round2) c = INF_RETURN /\
       exists m,
         evaluate_case read_geismar_instance load_solution check_feasibility
           (Some py_floor) c = Value m) /\
    (forall c, In c floor_infeasible_cases -> ~ In c round_infeasible_cases).
Proof.
  intros read load round2 check instances capacities lifespans rates rows fc rc H.
  unfold sweep in H.
  apply instance_loop in H as (new & _ & _ & _ & -> & -> & Hall).
  cbn [app]. rewrite Forall_forall in Hall.
  split; [|split; [|split]].
  - intros ->. split; apply filter_none; intros [[[[i Q] B] r] rep].
    + unfold floor_infeasible, evaluate_case.
      pose proof (evaluate_unchecked_not_INF (read i) (IZR Q) (IZR B) (IZR r)
                    (Some py_floor)
                    (read_solution_for_geismar_instance load rep i Q B r)) as Hno.
      destruct (evaluate _ _ _ _ _ _ _); [reflexivity|now destruct Hno|reflexivity].
    + unfold round_infeasible, evaluate_case.
      pose proof (evaluate_unchecked_not_INF (read i) (IZR Q) (IZR B) (IZR r)
                    (Some round2)
                    (read_solution_for_geismar_instance load rep i Q B r)) as Hno.
      destruct (evaluate _ _ _ _ (Some round2) _ _);
        [apply andb_false_r|now destruct Hno|apply andb_false_r].
  - intros c Hc. apply filter_In in Hc as [Hin Hfloor].
    apply list_elem_of_In, Hall in Hin. destruct Hin as (Horigi & _ & _).
    unfold floor_infeasible in Hfloor.
    assert (Hf : evaluate_case read load check (Some py_floor) c = INF_RETURN).
    { destruct (evaluate_case read load check (Some py_floor) c);
        [discriminate|reflexivity|discriminate]. }
    split; [exact Hf|].
    destruct (evaluate_case read load check None c) as [m| |e] eqn:E;
      [|reflexivity|now destruct (Horigi e)].
    exfalso. destruct c as [[[[i Q] B] r] rep]. unfold evaluate_case in E, Hf.
    destruct (evaluate_relax (read i) (IZR Q) (IZR Q) (IZR B) (IZR B) (IZR r)
                None (Some py_floor) check (Rle_refl _) (Rle_refl _)
                (fun x _ => py_floor_le x) _ m E) as (m' & E' & _).
    rewrite E' in Hf. discriminate Hf.
  - intros c Hc. apply filter_In in Hc as [Hin Hround].
    apply list_elem_of_In, Hall in Hin. destruct Hin as (_ & _ & Hfloor).
    unfold round_infeasible, floor_infeasible in Hround.
    apply andb_true_iff in Hround as [Hf Hr].
    split.
    + destruct (evaluate_case read load check (Some round2) c);
        [discriminate|reflexivity|discriminate].
    + destruct (evaluate_case read load check (Some py_floor) c) as [m| |e];
        [now exists m|discriminate|now destruct (Hfloor e)].
  - intros c Hf Hr.
    apply filter_In in Hf as [_ Hf]. apply filter_In in Hr as [_ Hr].
    unfold round_infeasible in Hr. rewrite Hf in Hr. discriminate Hr.
Qed.

Lemma plant_and_customer_makespan_rounded rounding_func :
  rounded rounding_func 5 = 5%R ->
  evaluate plant_and_customer 20 100 1 rounding_func true [[[1%Z]]] = Value 20%R.
Proof.
  intros Hr. unfold evaluate.
  pose proof (check_customers_single (mk_location 0 0 0) (mk_location 3 4 10))
    as Hc.
  change [mk_location 0 0 0; mk_location 3 4 10] with plant_and_customer in Hc.
  rewrite Hc. cbn [bind eval_routes].
  rewrite (eval_route_single _ _ _ _ _ _ _ _ (10, 20)%R).
  - cbn [bind snd]. now rewrite Rmax_0_20.
  - apply eval_batch_Value.
    exists (0 + 10)%R, (rounded rounding_func (euclid 0 0 3 4) + 0)%R,
           (rounded rounding_func (euclid 3 4 0 0)).
    rewrite euclid_0_0_3_4, euclid_3_4_0_0, Hr.
    split; [exact plant_and_customer_demand|].
    split; [intros _; unfold EPS_VALUE; lra|]. split; [lra|].
    split.
    { rewrite <- Hr at 1. rewrite <- euclid_0_0_3_4 at 1.
      exact (plant_and_customer_outbound rounding_func). }
    split; [intros _; unfold EPS_VALUE; lra|].
    split.
    { rewrite <- Hr. rewrite <- euclid_3_4_0_0 at 1.
      exact (plant_and_customer_return rounding_func). }
    rewrite merge_timelines_free by lra. f_equal; lra.
Qed.

Lemma py_floor_5 : py_floor 5 = 5%R.
Proof. unfold py_floor. now rewrite ZfloorZ. Qed.

(** A sweep over one instance and one combination: the plant and its
    customer, whatever the file names, and no rounding to two decimals. *)
Lemma plant_and_customer_sweep :
  sweep (fun _ => plant_and_customer) (fun _ _ _ _ _ => [[1%Z]]) (fun x => x) true
    [1%Z] [20%Z] [100%Z] [1%Z]
  = Value ([(1%Z, 20%Z, 100%Z, 1%Z, replicate 15 (Number 20))], [], []).
Proof.
  unfold sweep, product. cbn [flat_map map app for_each].
  unfold combination_body. cbn [for_each].
  unfold rep_body, evaluate_case, read_solution_for_geismar_instance.
  rewrite !(plant_and_customer_makespan_rounded None eq_refl).
  rewrite !(plant_and_customer_makespan_rounded (Some (fun x => x)) eq_refl).
  rewrite !(plant_and_customer_makespan_rounded (Some py_floor) py_floor_5).
  reflexivity.
Qed.

Lemma sweep_cases_witness :
  length [(1%Z, 20%Z, 100%Z, 1%Z, replicate 15 (Number 20))]
  = (length [1%Z] * (length [20%Z] * length [100%Z] * length [1%Z]))%nat /\
  Forall (fun row : Z * Z * Z * Z * list value => length (snd row) = 15%nat)
         [(1%Z, 20%Z, 100%Z, 1%Z, replicate 15 (Number 20))] /\
  [] = List.filter
         (floor_infeasible (fun _ => plant_and_customer)
            (fun _ _ _ _ _ => [[1%Z]]) true)
         (cases_of [1%Z] [20%Z] [100%Z] [1%Z]) /\
  [] = List.filter
         (round_infeasible (fun _ => plant_and_customer)
            (fun _ _ _ _ _ => [[1%Z]]) (fun x => x) true)
         (cases_of [1%Z] [20%Z] [100%Z] [1%Z]).
Proof.
  exact (sweep_cases _ _ _ _ _ _ _ _ _ _ _ plant_and_customer_sweep).
Defined.

Lemma plant_and_customer_over_capacity rounding_func :
  evaluate plant_and_customer 5 100 1 rounding_func true [[[1%Z]]] = INF_RETURN.
Proof.
  unfold evaluate.
  pose proof (check_customers_single (mk_location 0 0 0) (mk_location 3 4 10))
    as Hc.
  change [mk_location 0 0 0; mk_location 3 4 10] with plant_and_customer in Hc.
  rewrite Hc. cbn [bind eval_routes]. unfold eval_route. cbn [eval_batches].
  assert (H : eval_batch plant_and_customer 5 100 1 rounding_func true 0
                (0, 0)%R [1%Z] = INF_RETURN).
  { apply eval_batch_INF. split; [reflexivity|]. exists (0 + 10)%R.
    split; [exact plant_and_customer_demand|]. left. unfold EPS_VALUE. lra. }
  now rewrite H.
Qed.

(** The same sweep with a capacity of [5]: every case is rejected. *)
Lemma over_capacity_sweep :
  sweep (fun _ => plant_and_customer) (fun _ _ _ _ _ => [[1%Z]]) (fun x => x) true
    [1%Z] [5%Z] [100%Z] [1%Z]
  = Value ([(1%Z, 5%Z, 100%Z, 1%Z, replicate 15 Inf)],
           map (fun rep => (1%Z, 5%Z, 100%Z, 1%Z, rep)) [1; 2; 3; 4; 5]%Z, []).
Proof.
  unfold sweep, product. cbn [flat_map map app for_each].
  unfold combination_body. cbn [for_each].
  unfold rep_body, evaluate_case, read_solution_for_geismar_instance.
  rewrite !plant_and_customer_over_capacity.
  reflexivity.
Qed.

Lemma sweep_infeasible_cases_witness :
  evaluate_case (fun _ => plant_and_customer) (fun _ _ _ _ _ => [[1%Z]]) true
    (Some py_floor) (1%Z, 5%Z, 100%Z, 1%Z, 1%Z) = INF_RETURN /\
  evaluate_case (fun _ => plant_and_customer) (fun _ _ _ _ _ => [[1%Z]]) true
    None (1%Z, 5%Z, 100%Z, 1%Z, 1%Z) = INF_RETURN.
Proof.
  refine (proj1 (proj2 (sweep_infeasible_cases _ _ _ _ _ _ _ _ _ _ _
                          over_capacity_sweep)) (1%Z, 5%Z, 100%Z, 1%Z, 1%Z) _).
  left. reflexivity.
Defined.

(** ** The dictionaries of infeasible cases *)

Lemma dict_get_append_rep d key rep key' :
  dict_get (append_rep d key rep) key'
  = if decide (key = key') then Some (default [] (dict_get d key) ++ [rep])
    else dict_get d key'.
Proof.
  induction d as [|[k reps] d IH]; cbn [append_rep dict_get].
  - destruct (decide (key = key')); reflexivity.
  - destruct (decide (k = key)) as [->|Hk]; cbn [dict_get].
    + destruct (decide (key = key')); reflexivity.
    + rewrite IH. destruct (decide (k = key')) as [->|Hk'].
      * destruct (decide (key = key')) as [->|_]; [contradiction|reflexivity].
      * destruct (decide (key = key')); reflexivity.
Qed.

Lemma keys_append_rep d key rep k :
  In k (map fst (append_rep d key rep)) -> In k (map fst d) \/ k = key.
Proof.
  induction d as [|[k' reps] d IH]; cbn [append_rep].
  - cbn [map fst In]. intros [<-|[]]. now right.
  - destruct (decide (k' = key)) as [->|Hk]; cbn [map fst In].
    + intros [<-|H]; left; [now left|now right].
    + intros [<-|H]; [left; now left|].
      destruct (IH H) as [H'|H']; [left; now right|now right].
Qed.

Lemma NoDup_append_rep d key rep :
  List.NoDup (map fst d) -> List.NoDup (map fst (append_rep d key rep)).
Proof.
  induction d as [|[k reps] d IH]; cbn [append_rep map fst]; intros H.
  - constructor; [intros []|constructor].
  - apply List.NoDup_cons_iff in H as [Hk H].
    destruct (decide (k = key)) as [->|Hne]; cbn [map fst].
    + now constructor.
    + constructor; [|now apply IH].
      intros Hin. apply keys_append_rep in Hin as [Hin|Hin]; [contradiction|].
      now apply Hne.
Qed.

Lemma collect_snoc cases i Q B r rep :
  collect (cases ++ [(i, Q, B, r, rep)])
  = append_rep (collect cases) (i, Q, B, r) rep.
Proof. unfold collect. now rewrite foldl_app. Qed.

Lemma reps_of_snoc key cases i Q B r rep :
  reps_of key (cases ++ [(i, Q, B, r, rep)])
  = reps_of key cases ++ (if decide ((i, Q, B, r) = key) then [rep] else []).
Proof.
  unfold reps_of. rewrite omap_app. f_equal. cbn.
  destruct (decide ((i, Q, B, r) = key)); reflexivity.
Qed.

Lemma collect_NoDup cases : List.NoDup (map fst (collect cases)).
Proof.
  induction cases as [|[[[[i Q] B] r] rep] cases IH] using rev_ind.
  - constructor.
  - rewrite collect_snoc. now apply NoDup_append_rep.
Qed.

Lemma collect_get cases key :
  dict_get (collect cases) key
  = match reps_of key cases with
    | [] => None
    | reps => Some reps
    end.
Proof.
  induction cases as [|[[[[i Q] B] r] rep] cases IH] using rev_ind.
  - reflexivity.
  - rewrite collect_snoc, reps_of_snoc, dict_get_append_rep.
    destruct (decide ((i, Q, B, r) = key)) as [->|Hne].
    + rewrite IH. destruct (reps_of key cases); reflexivity.
    + now rewrite app_nil_r.
Qed.

(** X15.  The dictionary built from a list of infeasible cases has every
    key once, and holds under a key the replications recorded with this
    key, in the order of the list; a key without replication is not in the
    dictionary. *)
Theorem collect_groups :
  forall (cases : list (Z * Z * Z * Z * Z)) (key : Z * Z * Z * Z),
    List.NoDup (map fst (collect cases)) /\
    dict_get (collect cases) key
    = match reps_of key cases with
      | [] => None
      | reps => Some reps
      end.
Proof.
  intros cases key. split; [apply collect_NoDup|apply collect_get].
Qed.

(** X16.  When the driver runs to its end, [floor_dict] holds under the key
    [(i,Q,B,r)] the replications of the sweep whose evaluation with [floor]
    returns ['inf'], and [round_dict] those of the others whose evaluation
    with [round(x,2)] returns ['inf']; with the feasibility check off both
    dictionaries are empty. *)
Theorem driver_dictionaries :
  forall read_geismar_instance load_solution round2 check_feasibility
         (instances capacities lifespans rates : list Z) rows floor_dict
         round_dict,
    evaluate_lacomme_et_al_solutions_for_geismar_instances read_geismar_instance
      load_solution round2 check_feasibility instances capacities lifespans rates
    = Value (rows, floor_dict, round_dict) ->
    (forall key,
        dict_get floor_dict key
        = match reps_of key
                  (List.filter
                     (floor_infeasible read_geismar_instance load_solution
                        check_feasibility)
                     (cases_of instances capacities lifespans rates)) with
          | [] => None
          | reps => Some reps
          end) /\
    (forall key,
        dict_get round_dict key
        = match reps_of key
                  (List.filter
                     (round_infeasible read_geismar_instance load_solution round2
                        check_feasibility)
                     (cases_of instances capacities lifespans rates)) with
          | [] => None
          | reps => Some reps
          end) /\
    (check_feasibility = false -> floor_dict = [] /\ round_dict = []).
Proof.
  intros read load round2 check instances capacities lifespans rates rows fd rd H.
  unfold evaluate_lacomme_et_al_solutions_for_geismar_instances in H.
  apply bind_Value in H as ([[rows' fc] rc] & Hsweep & H).
  injection H as _ <- <-. unfold sweep in Hsweep.
  apply instance_loop in Hsweep as (new & _ & _ & _ & -> & -> & _).
  cbn [app]. split; [intros key; apply collect_get|].
  split; [intros key; apply collect_get|].
  intros ->. rewrite !filter_none; [now split| |].
  - intros [[[[i Q] B] r] rep]. unfold round_infeasible, evaluate_case.
    pose proof (evaluate_unchecked_not_INF (read i) (IZR Q) (IZR B) (IZR r)
                  (Some round2)
                  (read_solution_for_geismar_instance load rep i Q B r)) as Hno.
    destruct (evaluate _ _ _ _ (Some round2) _ _);
      [apply andb_false_r|now destruct Hno|apply andb_false_r].
  - intros [[[[i Q] B] r] rep]. unfold floor_infeasible, evaluate_case.
    pose proof (evaluate_unchecked_not_INF (read i) (IZR Q) (IZR B) (IZR r)
                  (Some py_floor)
                  (read_solution_for_geismar_instance load rep i Q B r)) as Hno.
    destruct (evaluate _ _ _ _ _ _ _); [reflexivity|now destruct Hno|reflexivity].
Qed.

Lemma over_capacity_driver :
  evaluate_lacomme_et_al_solutions_for_geismar_instances
    (fun _ => plant_and_customer) (fun _ _ _ _ _ => [[1%Z]]) (fun x => x) true
    [1%Z] [5%Z] [100%Z] [1%Z]
  = Value ([(1%Z, 5%Z, 100%Z, 1%Z, replicate 15 Inf)],
           [(1%Z, 5%Z, 100%Z, 1%Z, [1; 2; 3; 4; 5]%Z)], []).
Proof.
  unfold evaluate_lacomme_et_al_solutions_for_geismar_instances.
  rewrite over_capacity_sweep. reflexivity.
Qed.

Lemma driver_dictionaries_witness :
  dict_get [(1%Z, 5%Z, 100%Z, 1%Z, [1; 2; 3; 4; 5]%Z)] (1%Z, 5%Z, 100%Z, 1%Z)
  = match reps_of (1%Z, 5%Z, 100%Z, 1%Z)
            (List.filter
               (floor_infeasible (fun _ => plant_and_customer)
                  (fun _ _ _ _ _ => [[1%Z]]) true)
               (cases_of [1%Z] [5%Z] [100%Z] [1%Z])) with
    | [] => None
    | reps => Some reps
    end.
Proof.
  exact (proj1 (driver_dictionaries _ _ _ _ _ _ _ _ _ _ _ over_capacity_driver)
           (1%Z, 5%Z, 100%Z, 1%Z)).
Defined.

(** * No exception on well-formed input *)

Lemma sum_from_defined {A : Type} (f : A -> outcome R) (l : list A) (acc : R) :
  Forall (fun a => exists v, f a = Value v) l ->
  exists s, sum_from f l acc = Value s.
Proof.
  intros H. revert acc. induction H as [|a l [v Hv] _ IH]; intros acc.
  - now exists acc.
  - cbn [sum_from]. rewrite Hv. cbn [bind]. apply IH.
Qed.

Section WellFormed.

Variable locations : list location.
Hypothesis locations_ok : well_formed locations.

Lemma well_formed_lookup i :
  (0 <= i < len locations)%Z ->
  exists l x y d,
    locations !! Z.to_nat i = Some l /\ l !! "x"%string = Some x /\
    l !! "y"%string = Some y /\ l !! "demand"%string = Some d.
Proof.
  intros Hi. destruct (getitem_in_range locations i Hi) as (l & Hl & _).
  unfold well_formed in locations_ok. rewrite Forall_lookup in locations_ok.
  destruct (locations_ok _ _ Hl) as ([x Hx] & [y Hy] & [d Hd]).
  now exists l, x, y, d.
Qed.

Lemma well_formed_located i :
  (0 <= i < len locations)%Z -> exists x y, located locations i x y.
Proof.
  intros Hi. destruct (well_formed_lookup i Hi) as (l & x & y & d & Hl & Hx & Hy & _).
  exists x, y. split; [lia|]. now exists l.
Qed.

Lemma well_formed_travel rounding_func a b :
  (0 <= a < len locations)%Z -> (0 <= b < len locations)%Z ->
  exists v, get_travel_time locations a b rounding_func = Value v.
Proof.
  intros Ha Hb.
  destruct (well_formed_located a Ha) as (xa & ya & Hla).
  destruct (well_formed_located b Hb) as (xb & yb & Hlb).
  eexists. exact (get_travel_time_located _ _ _ _ _ _ _ _ Hla Hlb).
Qed.

Lemma well_formed_demand batch :
  Forall (fun c => (0 <= c < len locations)%Z) batch ->
  exists demand, batch_demand locations batch = Value demand.
Proof.
  intros H. apply sum_from_defined.
  apply Forall_impl with (1 := H). intros c Hc.
  destruct (well_formed_lookup c Hc) as (l & x & y & d & Hl & _ & _ & Hd).
  exists d. rewrite (getitem_nonneg _ _ _ (proj1 Hc) Hl). cbn [bind].
  unfold field. now rewrite Hd.
Qed.

Lemma well_formed_legs rounding_func from path acc :
  (0 <= from < len locations)%Z ->
  Forall (fun c => (0 <= c < len locations)%Z) path ->
  exists legs, legs_from locations rounding_func from path acc = Value legs.
Proof.
  intros Hfrom H. revert from acc Hfrom.
  induction H as [|c path Hc _ IH]; intros from acc Hfrom.
  - now exists acc.
  - cbn [legs_from].
    destruct (well_formed_travel rounding_func from c Hfrom Hc) as (v & ->).
    cbn [bind]. now apply IH.
Qed.

Lemma well_formed_outbound rounding_func plant batch :
  (0 <= plant < len locations)%Z -> batch <> [] ->
  Forall (fun c => (0 <= c < len locations)%Z) batch ->
  exists t_out, outbound_time locations rounding_func plant batch = Value t_out.
Proof.
  intros Hplant Hne H. destruct batch as [|first rest]; [contradiction|].
  apply Forall_cons_1 in H as [Hfirst Hrest].
  rewrite outbound_time_legs.
  destruct (well_formed_travel rounding_func plant first Hplant Hfirst) as (v & ->).
  cbn [bind].
  destruct (well_formed_legs rounding_func first rest 0 Hfirst Hrest) as (legs & ->).
  cbn [bind]. now eexists.
Qed.

Lemma well_formed_return rounding_func plant batch :
  (0 <= plant < len locations)%Z -> batch <> [] ->
  Forall (fun c => (0 <= c < len locations)%Z) batch ->
  exists back, return_time locations rounding_func plant batch = Value back.
Proof.
  intros Hplant Hne H.
  destruct (exists_last Hne) as (pre & last & ->).
  apply Forall_app in H as [_ Hlast]. apply Forall_cons_1 in Hlast as [Hlast _].
  rewrite return_time_last. now apply well_formed_travel.
Qed.

Variables capacity lifespan rate : R.
Variable rounding_func : option (R -> R).
Variable check_feasibility : bool.
Hypothesis rate_ok : rate <> 0%R.

Lemma well_formed_batch plant curr batch e :
  (0 <= plant < len locations)%Z -> batch <> [] ->
  Forall (fun c => (0 <= c < len locations)%Z) batch ->
  eval_batch locations capacity lifespan rate rounding_func check_feasibility
    plant curr batch <> Raise e.
Proof.
  intros Hplant Hne H. destruct curr as [p t]. unfold eval_batch.
  destruct (well_formed_demand batch H) as (demand & ->). cbn [bind].
  destruct (check_feasibility && _); [discriminate|].
  unfold divide. destruct (decide (rate = 0)%R); [contradiction|]. cbn [bind].
  destruct (well_formed_outbound rounding_func plant batch Hplant Hne H)
    as (t_out & ->).
  cbn [bind]. destruct (check_feasibility && _); [discriminate|].
  destruct (well_formed_return rounding_func plant batch Hplant Hne H)
    as (back & ->).
  discriminate.
Qed.

Lemma well_formed_batches plant curr route e :
  (0 <= plant < len locations)%Z ->
  Forall (fun batch => batch <> [] /\
                       Forall (fun c => (0 <= c < len locations)%Z) batch) route ->
  eval_batches locations capacity lifespan rate rounding_func check_feasibility
    plant curr route <> Raise e.
Proof.
  intros Hplant H. revert curr.
  induction H as [|batch route [Hne Hb] _ IH]; intros curr; [discriminate|].
  cbn [eval_batches].
  pose proof (well_formed_batch plant curr batch e Hplant Hne Hb) as Hno.
  destruct (eval_batch _ _ _ _ _ _ _ _ _) as [next| |e'];
    cbn [bind]; [apply IH|discriminate|congruence].
Qed.

Lemma well_formed_routes plant routes makespan e :
  (0 <= plant)%Z -> (plant + len routes <= len locations)%Z ->
  Forall (Forall (fun batch => batch <> [] /\
                    Forall (fun c => (0 <= c < len locations)%Z) batch)) routes ->
  eval_routes locations capacity lifespan rate rounding_func check_feasibility
    plant routes makespan <> Raise e.
Proof.
  intros Hplant Hlen H. revert plant makespan Hplant Hlen.
  induction H as [|route routes Hroute _ IH]; intros plant m Hplant Hlen;
    [discriminate|].
  assert (Hsucc : len (route :: routes) = Z.succ (len routes)).
  { unfold len. cbn [length]. lia. }
  cbn [eval_routes]. unfold eval_route.
  assert (Hp : (0 <= plant < len locations)%Z) by (unfold len in *; lia).
  pose proof (well_formed_batches plant (0, 0)%R route e Hp Hroute) as Hno.
  destruct (eval_batches _ _ _ _ _ _ _ _ _) as [fin| |e'];
    cbn [bind]; [|discriminate|congruence].
  apply IH; lia.
Qed.

End WellFormed.

(** X17.  With the feasibility check, [evaluate] raises none of
    [AssertionError], [IndexError], [KeyError] and [ZeroDivisionError] on
    well-formed input, that is when every location carries ['x'], ['y'] and
    ['demand'], the rate is not [0], no batch is empty and the rounding
    function returns.  The exceptions of the floating-point arithmetic,
    [OverflowError] and [ValueError], are outside the statement: the
    arithmetic is that of the real numbers here. *)
Theorem checked_evaluate_no_exception :
  forall locations capacity lifespan rate rounding_func
         (solution : list (list (list Z))) (e : exn),
    well_formed locations -> rate <> 0%R ->
    Forall (Forall (fun batch : list Z => batch <> [])) solution ->
    e = AssertionError \/ e = IndexError \/ e = KeyError \/
    e = ZeroDivisionError ->
    evaluate locations capacity lifespan rate rounding_func true solution
    <> Raise e.
Proof.
  intros locations capacity lifespan rate rounding_func solution e Hwf Hrate Hne _.
  unfold evaluate.
  destruct (check_customers_cases locations solution) as [Hc|Hc]; rewrite Hc;
    [|discriminate].
  cbn [bind]. pose proof (check_customers_count _ _ Hc) as Hcount.
  apply well_formed_routes; [exact Hwf|exact Hrate|lia| |].
  - unfold len in *. lia.
  - rewrite Forall_forall in Hne. apply Forall_forall. intros route Hroute.
    specialize (Hne route Hroute). rewrite Forall_forall in Hne.
    apply Forall_forall. intros batch Hbatch. split; [now apply Hne|].
    apply Forall_forall. intros c Hin.
    assert (Hc' : c ∈ concat (concat solution)).
    { apply list_elem_of_In, in_concat. exists batch.
      split; [|now apply list_elem_of_In].
      apply in_concat. exists route. split; now apply list_elem_of_In. }
    pose proof (check_customers_range _ _ _ Hc Hc'). unfold len in *. lia.
Qed.

Lemma well_formed_plant_and_customer : well_formed plant_and_customer.
Proof.
  repeat constructor;
    first [rewrite mk_location_x | rewrite mk_location_y
          | rewrite mk_location_demand]; eauto.
Qed.

Lemma checked_evaluate_no_exception_witness :
  evaluate plant_and_customer 20 100 1 None true [[[1%Z]]]
  <> Raise ZeroDivisionError.
Proof.
  refine (checked_evaluate_no_exception plant_and_customer 20 100 1 None
            [[[1%Z]]] ZeroDivisionError well_formed_plant_and_customer _ _ _).
  - lra.
  - repeat constructor. discriminate.
  - right. right. right. reflexivity.
Defined.

(** * Double precision *)













(** ** get_travel_time in double precision *)







(** ** The two tests in double precision *)







Section DoubleTests.

Variable locations : list Double.location.
Variables capacity lifespan rate : Double.number.
Variable rounding_func : option (float -> outcome Double.number).
Hypothesis rounding_returns :
  forall f x, rounding_func = Some f -> f x <> INF_RETURN.




End DoubleTests.







